(** * client.py: Google Drive folder uploader

    A shallow embedding of [src/client.py] and the properties of its
    destination-path parsing, remote folder resolution, upload seeding and
    work-queue draining.

    Python values are modelled as follows: [str] is [string] (bytes of the
    UTF-8 text; every character the source inspects is ASCII), lists are
    [list], the Redis key space is a [gmap] from keys to [gset]s, and the
    side effects of the script (remote drive, Redis, local file system,
    logger, stdout) are threaded through an explicit [World] by a
    state-and-exception monad. *)

From stdpp Require Import base gmap strings list pretty.
From Stdlib Require Import String Ascii Lia.

Set Warnings "-clear-no-such-hyp,-register-all".

(** ** Python [str] methods used by the source *)

Module Str.

(** [s.lstrip(c)] for a one-character [c]. *)
Fixpoint lstrip (c : ascii) (s : string) : string :=
  match s with
  | String a s' => if Ascii.eqb a c then lstrip c s' else s
  | EmptyString => EmptyString
  end.

(** [s.rstrip(c)] for a one-character [c]. *)
Fixpoint rstrip (c : ascii) (s : string) : string :=
  match s with
  | EmptyString => EmptyString
  | String a s' =>
      match rstrip c s' with
      | EmptyString => if Ascii.eqb a c then EmptyString else String a EmptyString
      | r => String a r
      end
  end.

(** [s.strip(c)]. *)
Definition strip (c : ascii) (s : string) : string := rstrip c (lstrip c s).

(** [s.split(c)] with an explicit one-character separator: adjacent
    separators delimit empty strings and the result always has at least
    one element. *)
Fixpoint split (c : ascii) (s : string) : list string :=
  match s with
  | EmptyString => [EmptyString]
  | String a s' =>
      if Ascii.eqb a c then EmptyString :: split c s'
      else match split c s' with
           | w :: ws => String a w :: ws
           | [] => [String a EmptyString]
           end
  end.

(** [needle in hay]. *)
Fixpoint contains (needle hay : string) : bool :=
  String.prefix needle hay
  || match hay with
     | EmptyString => false
     | String _ hay' => contains needle hay'
     end.

Definition lower_ascii (c : ascii) : ascii :=
  let n := nat_of_ascii c in
  if (65 <=? n) && (n <=? 90) then ascii_of_nat (n + 32) else c.

(** [s.lower()] on ASCII text. *)
Fixpoint lower (s : string) : string :=
  match s with
  | EmptyString => EmptyString
  | String c s' => String (lower_ascii c) (lower s')
  end.

(** [sep.join(l)]. *)
Definition join (sep : string) (l : list string) : string := String.concat sep l.

Definition starts_with (c : ascii) (s : string) : bool :=
  match s with
  | String a _ => Ascii.eqb a c
  | EmptyString => false
  end.

Fixpoint ends_with (c : ascii) (s : string) : bool :=
  match s with
  | EmptyString => false
  | String a EmptyString => Ascii.eqb a c
  | String _ s' => ends_with c s'
  end.

End Str.

(** The expression [folder_path.strip("/").split("/")] of [get_folder_id]. *)
Definition destination_path (folder_path : string) : list string :=
  Str.split "/" (Str.strip "/" folder_path).

(** The string of [n] slashes. *)
Fixpoint slashes (n : nat) : string :=
  match n with
  | 0 => EmptyString
  | S n => String "/" (slashes n)
  end.

(** ** Exceptions, the world and the monad of effects *)

(** The exceptions that the modelled code and library calls raise.
    [HttpError] carries [e.content], the body of the response, which is a
    bytes object. *)
Inductive exn : Type :=
| ValueError (msg : string)
| TypeError (msg : string)
| UnboundLocalError (name : string)
| IndexError (msg : string)
| NotImplementedError (msg : string)
| FileNotFoundError (path : string)
| re_error (pattern : string)
| HttpError (content : string)
| ApiRequestError (msg : string)
| KeyError (key : string)
| AttributeError (msg : string)
| IsADirectoryError (path : string)
| PermissionError (path : string).

Inductive result (A : Type) : Type :=
| Ok (a : A)
| Raise (e : exn).
Arguments Ok {A} a.
Arguments Raise {A} e.

Inductive level : Type := INFO | ERROR.

(** A file resource of the remote drive, with the metadata keys the source
    reads or writes. *)
Record GoogleDriveFile : Type := {
  gd_id : string;
  gd_title : string;
  gd_mimeType : string;
  gd_parents : list string;
  gd_trashed : bool
}.

(** Everything the script acts on. [drive] lists the remote files in the
    order in which a listing returns them, new files last; [list_faults]
    maps a folder id to the content of the [HttpError] that listing its
    children raises; [next_id] numbers the identifiers the drive assigns;
    [redis] maps a key to its set; [local_dirs] maps a local directory to
    its entries, under the string of its path; [local_files] maps a file
    name that denotes a local regular file, as it is given to [open], to
    whether the file can be read; [guess_type] is the table of [mimetypes]:
    the type guessed for a file name, if any. *)
Record World : Type := {
  drive : list GoogleDriveFile;
  list_faults : gmap string string;
  next_id : nat;
  redis : gmap string (gset string);
  local_dirs : gmap string (list string);
  local_files : gmap string bool;
  guess_type : string → option string;
  log : list (level * string);
  stdout : list string
}.

Definition set_drive (fs : list GoogleDriveFile) (n : nat) (w : World) : World :=
  {| drive := fs; list_faults := list_faults w; next_id := n; redis := redis w;
     local_dirs := local_dirs w; local_files := local_files w;
     guess_type := guess_type w; log := log w; stdout := stdout w |}.

Definition set_redis (r : gmap string (gset string)) (w : World) : World :=
  {| drive := drive w; list_faults := list_faults w; next_id := next_id w; redis := r;
     local_dirs := local_dirs w; local_files := local_files w;
     guess_type := guess_type w; log := log w; stdout := stdout w |}.

Definition set_log (l : list (level * string)) (w : World) : World :=
  {| drive := drive w; list_faults := list_faults w; next_id := next_id w;
     redis := redis w; local_dirs := local_dirs w; local_files := local_files w;
     guess_type := guess_type w; log := l; stdout := stdout w |}.

Definition set_stdout (l : list string) (w : World) : World :=
  {| drive := drive w; list_faults := list_faults w; next_id := next_id w;
     redis := redis w; local_dirs := local_dirs w; local_files := local_files w;
     guess_type := guess_type w; log := log w; stdout := l |}.

(** A computation that reads and updates the world and either returns a
    value or raises. The world is kept when an exception is raised: what was
    created remotely before the exception stays created. *)
Definition Py (A : Type) : Type := World → result A * World.

Definition ret {A} (a : A) : Py A := λ w, (Ok a, w).

Definition raise {A} (e : exn) : Py A := λ w, (Raise e, w).

Definition bind {A B} (m : Py A) (k : A → Py B) : Py B :=
  λ w, match m w with
       | (Ok a, w') => k a w'
       | (Raise e, w') => (Raise e, w')
       end.

Notation "'let*' x := m 'in' k" := (bind m (λ x, k))
  (at level 10, x name, m at level 100, k at level 200).

(** [logger.info(msg)] and [logger.error(msg)]. *)
Definition logger_info (msg : string) : Py unit :=
  λ w, (Ok (), set_log (log w ++ [(INFO, msg)]) w).

Definition logger_error (msg : string) : Py unit :=
  λ w, (Ok (), set_log (log w ++ [(ERROR, msg)]) w).

(** [print(msg)]. *)
Definition print (msg : string) : Py unit :=
  λ w, (Ok (), set_stdout (stdout w ++ [msg]) w).

(** ** The remote drive *)

Definition folder_mimeType : string := "application/vnd.google-apps.folder".

(** The files selected by the query ['<parent>' in parents and trashed=false]. *)
Definition children (parent : string) (fs : list GoogleDriveFile) : list GoogleDriveFile :=
  filter (λ f, parent ∈ gd_parents f ∧ gd_trashed f = false) fs.

(** [drive_client.ListFile({'q': "'<parent>' in parents and trashed=false"}).GetList()]. *)
Definition ListFile_GetList (parent : string) : Py (list GoogleDriveFile) :=
  λ w, match list_faults w !! parent with
       | Some content => (Raise (HttpError content), w)
       | None => (Ok (children parent (drive w)), w)
       end.

(** The identifier the drive assigns to its [n]-th new file. *)
Definition drive_id (n : nat) : string := "id" +:+ pretty n.

(** [drive_client.CreateFile(metadata)] followed by [Upload()]: the drive
    stores the file under a new identifier, which the file object then
    holds under ['id']. *)
Definition CreateFile_Upload (title mimeType : string) (parents : list string) : Py string :=
  λ w, let i := drive_id (next_id w) in
       let f := {| gd_id := i; gd_title := title; gd_mimeType := mimeType;
                   gd_parents := parents; gd_trashed := false |} in
       (Ok i, set_drive (drive w ++ [f]) (S (next_id w)) w).

(** ** [ast.literal_eval] on the content of an [HttpError] *)

(** The result of a computation without effects. *)
Definition result_bind {A B} (r : result A) (k : A → result B) : result B :=
  match r with
  | Ok a => k a
  | Raise e => Raise e
  end.

Definition hex_digit (n : nat) : ascii :=
  ascii_of_nat (if n <? 10 then 48 + n else 87 + n).

(** One byte in [repr(b)]: the quote in use and the backslash are escaped,
    tab, newline and carriage return have their letters, and every other
    byte outside the printable ASCII range is written in hexadecimal. *)
Definition bytes_repr_byte (quote c : ascii) : string :=
  let n := nat_of_ascii c in
  if Ascii.eqb c quote || Ascii.eqb c "092" then String "092" (String c EmptyString)
  else if n =? 9 then String "092" "t"
  else if n =? 10 then String "092" "n"
  else if n =? 13 then String "092" "r"
  else if (n <? 32) || (127 <=? n)
       then String "092" (String "x" (String (hex_digit (n / 16))
                                        (String (hex_digit (n `mod` 16)) EmptyString)))
       else String c EmptyString.

Fixpoint bytes_repr_body (quote : ascii) (b : string) : string :=
  match b with
  | EmptyString => EmptyString
  | String c b => bytes_repr_byte quote c +:+ bytes_repr_body quote b
  end.

(** [repr(b)] of a bytes object: single quotes, unless the bytes hold a
    single quote and no double quote. *)
Definition bytes_repr (b : string) : string :=
  let quote : ascii :=
    if Str.contains (String "039" EmptyString) b
       && negb (Str.contains (String "034" EmptyString) b)
    then "034"%char else "039"%char in
  String "b" (String quote (bytes_repr_body quote b +:+ String quote EmptyString)).

(** The values of the literals that the handler subscripts. *)
Inductive pyliteral : Type :=
| LitStr (s : string)
| LitDict (items : list (string * pyliteral)).

(** [ast.literal_eval(content)] for a bytes object: the argument is
    neither a string nor a syntax tree, and is refused. *)
Definition ast_literal_eval (content : string) : result pyliteral :=
  Raise (ValueError ("malformed node or string: " +:+ bytes_repr content)).

(** [d[key]]. *)
Definition getitem (d : pyliteral) (key : string) : result pyliteral :=
  match d with
  | LitDict items =>
      match find (λ item, String.eqb item.1 key) items with
      | Some item => Ok item.2
      | None => Raise (KeyError key)
      end
  | LitStr _ => Raise (TypeError "string indices must be integers, not 'str'")
  end.

(** ** [create_gdrive_folder] and [get_folder_id] *)

Definition create_gdrive_folder (folder_name parent_folder_id : string) : Py string :=
  let* folder_id := CreateFile_Upload folder_name folder_mimeType [parent_folder_id] in
  let* _ := logger_info ("Created new folder (" +:+ folder_name +:+ ") with id "
                         +:+ folder_id +:+ ", parent id " +:+ parent_folder_id) in
  ret folder_id.

(** The [try]/[except] around the listing call. The local variable
    [file_list] is bound only when the listing returns: [None] stands for
    the unbound variable. In the handler, [e.content] goes to
    [ast.literal_eval]; an exception raised there leaves the handler. *)
Definition try_list (folder_name parent_folder_id : string)
  : Py (option (list GoogleDriveFile)) :=
  λ w, match ListFile_GetList parent_folder_id w with
       | (Ok l, w') => (Ok (Some l), w')
       | (Raise (HttpError content), w') =>
           match result_bind (ast_literal_eval content) (λ d,
                 result_bind (getitem d "error") (λ error, getitem error "message")) with
           | Ok (LitStr message) =>
               if Str.contains "file not found" (Str.lower message)
               then (Raise (ValueError ("Folder " +:+ folder_name
                                        +:+ " was not found on Google Drive: "
                                        +:+ message)), w')
               else bind (logger_error message) (λ _, ret None) w'
           | Ok (LitDict _) =>
               (Raise (AttributeError "'dict' object has no attribute 'lower'"), w')
           | Raise e => (Raise e, w')
           end
       | (Raise e, w') => (Raise e, w')
       end.

(** The nested function [search_file_tree]. The list [folder_path] of the
    enclosing call is consumed from the front by [pop(0)]; the segments that
    remain are passed along here. The result is [None] where the Python
    function falls off its end. *)
Fixpoint search_file_tree (dst_folder_name : string) (folder_path : list string)
    (parent_folder_id : string) : Py (option string) :=
  match folder_path with
  | [] => ret None
  | folder_name :: folder_path =>
      let* _ := logger_info ("Searching for folder: " +:+ folder_name) in
      let* file_list := try_list folder_name parent_folder_id in
      match file_list with
      | None => raise (UnboundLocalError "file_list")
      | Some file_list =>
          match find (λ file, String.eqb (gd_title file) folder_name) file_list with
          | Some file =>
              let* _ := logger_info ("Found folder: " +:+ folder_name) in
              if String.eqb folder_name dst_folder_name then
                let* _ := logger_info ("Found destination folder id: " +:+ gd_id file) in
                ret (Some (gd_id file))
              else search_file_tree dst_folder_name folder_path (gd_id file)
          | None =>
              let* folder_id := create_gdrive_folder folder_name parent_folder_id in
              if String.eqb folder_name dst_folder_name then
                let* _ := logger_info ("Found destination folder id: " +:+ folder_id) in
                ret (Some folder_id)
              else search_file_tree dst_folder_name folder_path folder_id
          end
      end
  end.

Definition get_folder_id (folder_path : string) : Py (option string) :=
  let folder_path := destination_path folder_path in
  match last folder_path with
  | None => raise (IndexError "list index out of range")
  | Some dst_folder_name =>
      let* _ := logger_info ("Searching for folder '" +:+ dst_folder_name +:+ "' id") in
      search_file_tree dst_folder_name folder_path "root"
  end.

Definition empty_world : World :=
  {| drive := []; list_faults := ∅; next_id := 0; redis := ∅; local_dirs := ∅;
     local_files := ∅; guess_type := λ _, None; log := []; stdout := [] |}.

(** *** The resolution of the spec, as a walk over the segments *)

Definition by_title (folder_name : string) (file : GoogleDriveFile) : bool :=
  String.eqb (gd_title file) folder_name.

Definition by_title_and_type (folder_name : string) (file : GoogleDriveFile) : bool :=
  by_title folder_name file && String.eqb (gd_mimeType file) folder_mimeType.

Definition new_folder (n : nat) (folder_name parent : string) : GoogleDriveFile :=
  {| gd_id := drive_id n; gd_title := folder_name; gd_mimeType := folder_mimeType;
     gd_parents := [parent]; gd_trashed := false |}.

(** The contract of the path resolver in the words of the spec: starting at
    the root, for each segment list the children of the current folder; if a
    child matches, descend into it, otherwise create a folder with that name
    under the current folder and descend into the new folder; the folder
    reached after the last segment is the result. [matching] is the test
    that makes a child match a segment. The drive is the list of its files
    and the number of the next identifier. *)
Fixpoint resolve_spec (matching : string → GoogleDriveFile → bool)
    (segments : list string) (current : string)
    (fs : list GoogleDriveFile) (n : nat) : string * (list GoogleDriveFile * nat) :=
  match segments with
  | [] => (current, (fs, n))
  | segment :: segments =>
      match find (matching segment) (children current fs) with
      | Some child => resolve_spec matching segments (gd_id child) fs n
      | None =>
          resolve_spec matching segments (drive_id n)
            (fs ++ [new_folder n segment current]) (S n)
      end
  end.

Definition info (msg : string) (w : World) : World :=
  set_log (log w ++ [(INFO, msg)]) w.

(** ** [pathlib] on a POSIX system *)

Module Pathlib.

(** A path object: the root it is anchored at (empty for a relative
    path) and its components. *)
Record PosixPath : Type := { anchor : string; parts : list string }.

#[global] Instance PosixPath_eq_dec : EqDecision PosixPath.
Proof. solve_decision. Defined.

(** Exactly two leading slashes are kept, one or more than two make the
    root ["/"]. *)
Definition parse_anchor (s : string) : string :=
  if String.prefix "///" s then "/"
  else if String.prefix "//" s then "//"
  else if String.prefix "/" s then "/"
  else "".

(** [Path(s)]: empty components and ["."] components are dropped. *)
Definition Path (s : string) : PosixPath :=
  {| anchor := parse_anchor s;
     parts := filter (λ part, part ≠ "" ∧ part ≠ ".") (Str.split "/" s) |}.

(** [p.name]: the final component, or the empty string when there is none. *)
Definition name (p : PosixPath) : string := default "" (last (parts p)).

(** [str(p)]. *)
Definition str (p : PosixPath) : string :=
  match anchor p, parts p with
  | EmptyString, [] => "."
  | a, ps => a +:+ Str.join "/" ps
  end.

(** [p / entry] for the name of a directory entry. *)
Definition joinpath (p : PosixPath) (entry : string) : PosixPath :=
  {| anchor := anchor p; parts := parts p ++ [entry] |}.

End Pathlib.

Import Pathlib.

(** [Path(d).iterdir()], read to its end. *)
Definition iterdir (p : PosixPath) : Py (list PosixPath) :=
  λ w, match local_dirs w !! Pathlib.str p with
       | Some entries => (Ok (joinpath p <$> entries), w)
       | None => (Raise (FileNotFoundError (Pathlib.str p)), w)
       end.

(** A Python object as far as [re.search] tells its arguments apart. *)
Inductive pyobj : Type :=
| PyStr (s : string)
| PyPath (p : PosixPath).

(** The nested generators of a list comprehension whose clauses have
    effects, evaluated in the order of the source. *)
Fixpoint for_in {A B} (l : list A) (body : A → Py (list B)) : Py (list B) :=
  match l with
  | [] => ret []
  | a :: l =>
      let* bs := body a in
      let* rest := for_in l body in
      ret (bs ++ rest)
  end.

Fixpoint filter_if {A} (cond : A → Py bool) (l : list A) : Py (list A) :=
  match l with
  | [] => ret []
  | a :: l =>
      let* keep := cond a in
      let* rest := filter_if cond l in
      ret (if keep then a :: rest else rest)
  end.

(** [str(x)] of an optional string argument inside an f-string. *)
Definition fmt_opt (o : option string) : string := default "None" o.

(** ** [get_local_files] *)

Section LocalFiles.

(** The regular expression engine and the glob selector are libraries
    outside the repository. [re_compile] tells the patterns the engine
    accepts, [regex_search] is the search of a compiled pattern in a
    string, and [glob_select] is the outcome of the selector for a
    non-empty relative pattern under a directory. *)
Variable regex : Type.
Variable re_compile : string → option regex.
Variable regex_search : regex → string → bool.
Variable glob_select : gmap string (list string) → PosixPath → string → result (list PosixPath).

(** [re.search(pattern, o)]: the pattern is compiled first; the compiled
    pattern then accepts only a string. *)
Definition re_search (pattern : string) (o : pyobj) : Py bool :=
  match re_compile pattern with
  | None => raise (re_error pattern)
  | Some r =>
      match o with
      | PyStr s => ret (regex_search r s)
      | PyPath _ => raise (TypeError "expected string or bytes-like object, got 'PosixPath'")
      end
  end.

(** [Path(d).glob(pattern)], read to its end. *)
Definition glob (p : PosixPath) (pattern : string) : Py (list PosixPath) :=
  if String.eqb pattern "" then raise (ValueError "Unacceptable pattern: ''")
  else if Str.starts_with "/" pattern
       then raise (NotImplementedError "Non-relative patterns are unsupported")
       else λ w, (glob_select (local_dirs w) p pattern, w).

(** The argument [dirs]: a single directory or a list of directories. *)
Inductive dirs_arg : Type :=
| OneDir (d : string)
| DirList (ds : list string).

Definition get_local_files (dirs : dirs_arg) (glob_pattern re_pattern : option string)
  : Py (list PosixPath) :=
  let files := [] in
  let dirs := match dirs with DirList ds => ds | OneDir d => [d] end in
  let* files :=
    match glob_pattern, re_pattern with
    | None, None => for_in dirs (λ d, iterdir (Path d))
    | _, _ => ret files
    end in
  let* files :=
    match glob_pattern with
    | Some glob_pattern =>
        let* found := for_in dirs (λ d, glob (Path d) glob_pattern) in
        ret (files ++ found)
    | None => ret files
    end in
  let* files :=
    match re_pattern with
    | Some re_pattern =>
        let* found :=
          for_in dirs (λ d,
            let* entries := iterdir (Path d) in
            filter_if (λ f, re_search re_pattern (PyPath f)) entries) in
        ret (files ++ found)
    | None => ret files
    end in
  let* _ := print ("Found " +:+ pretty (List.length files) +:+ " files in "
                   +:+ Str.join "," dirs +:+ " matching glob_pattern "
                   +:+ fmt_opt glob_pattern +:+ " and re_pattern "
                   +:+ fmt_opt re_pattern +:+ ".") in
  ret files.

End LocalFiles.

Arguments re_search {regex} re_compile regex_search pattern o.
Arguments get_local_files {regex} re_compile regex_search glob_select dirs
  glob_pattern re_pattern.

(** ** Redis sets *)

(** The members of the set stored at [key]; a missing key is the empty set. *)
Definition smembers (key : string) (w : World) : gset string :=
  default ∅ (redis w !! key).

(** Redis keeps no empty set: a key whose set becomes empty is removed. *)
Definition store_set (key : string) (s : gset string)
    (r : gmap string (gset string)) : gmap string (gset string) :=
  if decide (s = ∅) then delete key r else <[key := s]> r.

(** [redis_client.sadd(key, value)]: the number of members added. *)
Definition sadd (key value : string) : Py nat :=
  λ w, let s := smembers key w in
       (Ok (if decide (value ∈ s) then 0 else 1),
        set_redis (store_set key ({[value]} ∪ s) (redis w)) w).

(** [redis_client.scard(key)]. *)
Definition scard (key : string) : Py nat :=
  λ w, (Ok (size (smembers key w)), w).

(** [redis_client.spop(key)]: one command of the server, which removes a
    member of its choosing and returns it, or returns [None] for an empty
    set. [choice] stands for the choice of the server. *)
Definition spop (choice : nat) (key : string) : Py (option string) :=
  λ w, let members := elements (smembers key w) in
       match members !! (choice `mod` List.length members) with
       | Some member =>
           (Ok (Some member),
            set_redis (store_set key (smembers key w ∖ {[member]}) (redis w)) w)
       | None => (Ok None, w)
       end.

(** ** [upload_file] *)

(** [open(filename, 'rb')]: the name has to be that of a regular file
    that can be read. The empty name denotes nothing. *)
Definition open_rb (filename : string) : Py unit :=
  λ w, if String.eqb filename "" then (Raise (FileNotFoundError filename), w)
       else
         match local_files w !! filename with
         | Some true => (Ok (), w)
         | Some false => (Raise (PermissionError filename), w)
         | None =>
             match local_dirs w !! Pathlib.str (Path filename) with
             | Some _ => (Raise (IsADirectoryError filename), w)
             | None => (Raise (FileNotFoundError filename), w)
             end
         end.

(** [f.SetContentFile(filename)] for a file object that has a title and no
    type yet: the file is opened and its type is guessed from its name. The
    result is the value under ['mimeType']. *)
Definition SetContentFile (filename : string) : Py (option string) :=
  let* _ := open_rb filename in
  λ w, (Ok (guess_type w filename), w).

(** The type under which [f.Upload()] sends the content: the one set on
    the file object or, without one, that of plain bytes. *)
Definition BuildMediaBody (mimeType : option string) : string :=
  default "application/octet-stream" mimeType.

(** [dst_folder_id] is what [get_folder_id] returned: an identifier or
    [None]. The drive refuses a parent link that has no identifier. *)
Definition upload_file (local_file : string) (dst_folder_id : option string) : Py unit :=
  let title := Pathlib.name (Path local_file) in
  let* mimeType := SetContentFile local_file in
  match dst_folder_id with
  | Some dst_folder_id =>
      let* _ := CreateFile_Upload title (BuildMediaBody mimeType) [dst_folder_id] in
      ret ()
  | None => raise (ApiRequestError "parent without id")
  end.

(** ** [cache_upload_files] *)

(** [s.difference(others)]: every element of [others] is hashed and then
    discarded from a copy of [s]. [hashable] tells the elements that have a
    hash, [eqb] is the equality of an element of [s] with one of [others]. *)
Fixpoint set_difference {A B} (hashable : B → bool) (eqb : A → B → bool)
    (type_name : string) (s : list A) (others : list B) : result (list A) :=
  match others with
  | [] => Ok s
  | key :: others =>
      if hashable key
      then set_difference hashable eqb type_name
             (List.filter (λ a, negb (eqb a key)) s) others
      else Raise (TypeError ("unhashable type: '" +:+ type_name +:+ "'"))
  end.

(** A [GoogleDriveFile] is a [dict]: it has no hash, and it equals no path. *)
Definition GoogleDriveFile_hashable (f : GoogleDriveFile) : bool := false.

Definition path_eq_file (p : PosixPath) (f : GoogleDriveFile) : bool := false.

Definition lift {A} (r : result A) : Py A := λ w, (r, w).

Fixpoint sadd_all (key : string) (local_files : list PosixPath) : Py unit :=
  match local_files with
  | [] => ret ()
  | file :: local_files =>
      let* _ := sadd key (Pathlib.str file) in
      sadd_all key local_files
  end.

Definition cache_upload_files (local_files : list PosixPath) (dst_dir : string)
    (overwrite_existing : bool) (key : string) : Py unit :=
  let* local_files :=
    if negb overwrite_existing then
      let* dst_folder_id := get_folder_id dst_dir in
      let* existing_files := ListFile_GetList (fmt_opt dst_folder_id) in
      let* _ := logger_info ("Found " +:+ pretty (List.length existing_files)
                             +:+ " existing files in destination folder "
                             +:+ dst_dir +:+ ".") in
      lift (set_difference GoogleDriveFile_hashable path_eq_file "GoogleDriveFile"
              (remove_dups local_files) existing_files)
    else ret local_files in
  let* _ := logger_info ("Caching " +:+ pretty (List.length local_files)
                         +:+ " local files for upload.") in
  let* _ := sadd_all key local_files in
  logger_info "Finished caching local files.".

(** ** [upload_files], one step at a time *)

(** Where a worker process is in [upload_files]: about to resolve the
    destination, about to take an item, holding an item it took, returned,
    or stopped by an exception. *)
Inductive proc : Type :=
| Resolving (dst_dir : string)
| Polling (dst_dir_id : option string) (count : nat)
| Holding (dst_dir_id : option string) (count : nat) (local_file : string)
| Returned
| Crashed (e : exn).

(** What a step does: it resolves the destination, it is a call of [spop]
    with the value returned, or it is the upload of the item held. *)
Inductive action : Type :=
| Resolve
| Take (item : option string)
| Upload (local_file : string).

Definition after_upload (key : string) (count : nat) : Py unit :=
  if (count `mod` 50 =? 0)%nat then
    let* remaining := scard key in
    logger_info ("Remaining file count: " +:+ pretty remaining)
  else ret ().

(** One step of a worker in [upload_files(dst_dir, key=key)]. A worker that
    returned or crashed has no step. Every step holds at most one Redis
    command, so the commands of different workers interleave as the server
    runs them, one at a time; the calls to the drive in a step are taken
    together. *)
Definition proc_step (key : string) (choice : nat) (p : proc) (w : World)
  : option (action * proc * World) :=
  match p with
  | Resolving dst_dir =>
      match get_folder_id dst_dir w with
      | (Ok dst_dir_id, w') =>
          Some (Resolve, Polling dst_dir_id 0,
                info ("Uploading files to Google Drive folder '" +:+ dst_dir
                      +:+ "' (id " +:+ fmt_opt dst_dir_id +:+ ")") w')
      | (Raise e, w') => Some (Resolve, Crashed e, w')
      end
  | Polling dst_dir_id count =>
      match spop choice key w with
      | (Ok (Some local_file), w') =>
          Some (Take (Some local_file), Holding dst_dir_id count local_file, w')
      | (Ok None, w') =>
          Some (Take None, Returned, info "All files are uploaded!" w')
      | (Raise e, w') => Some (Take None, Crashed e, w')
      end
  | Holding dst_dir_id count local_file =>
      match bind (logger_info ("Uploading file " +:+ local_file))
              (λ _, bind (upload_file local_file dst_dir_id)
                      (λ _, after_upload key (S count))) w with
      | (Ok _, w') => Some (Upload local_file, Polling dst_dir_id (S count), w')
      | (Raise e, w') => Some (Upload local_file, Crashed e, w')
      end
  | Returned => None
  | Crashed _ => None
  end.

(** Any number of worker processes over one world. *)
Record system : Type := { world : World; procs : list proc }.

(** One step of the system: one of the workers takes one step, with any
    choice of the Redis server. *)
Inductive step (key : string) : system → nat * action → system → Prop :=
| step_worker σ i choice p a p' w' :
    procs σ !! i = Some p →
    proc_step key choice p (world σ) = Some (a, p', w') →
    step key σ (i, a) {| world := w'; procs := <[i := p']> (procs σ) |}.

(** A run of the system with the steps taken, in order. *)
Inductive run (key : string) : system → list (nat * action) → system → Prop :=
| run_done σ : run key σ [] σ
| run_step σ e σ' es σ'' :
    step key σ e σ' → run key σ' es σ'' → run key σ (e :: es) σ''.

(** The values returned by the calls of [spop] in a run, in order. *)
Definition takes (es : list (nat * action)) : list (option string) :=
  omap (λ e, match e.2 with Take r => Some r | _ => None end) es.

(** The items handed out by the calls of [spop] in a run, with the worker
    that received each. *)
Definition deliveries (es : list (nat * action)) : list (nat * string) :=
  omap (λ e, match e.2 with Take (Some item) => Some (e.1, item) | _ => None end) es.

(** One step of worker [i] with the given choice of the Redis server, as a
    function; [None] when there is no such worker or it has no step. *)
Definition system_step (key : string) (i choice : nat) (σ : system)
  : option (action * system) :=
  match procs σ !! i with
  | Some p =>
      match proc_step key choice p (world σ) with
      | Some (a, p', w') => Some (a, {| world := w'; procs := <[i := p']> (procs σ) |})
      | None => None
      end
  | None => None
  end.

(** The run that a schedule produces: the schedule names, in order, the
    worker that steps and the choice of the server. An entry for a worker
    that has no step is skipped. *)
Fixpoint exec (key : string) (schedule : list (nat * nat)) (σ : system)
  : list (nat * action) * system :=
  match schedule with
  | [] => ([], σ)
  | (i, choice) :: schedule =>
      match system_step key i choice σ with
      | Some (a, σ') =>
          let '(es, σ'') := exec key schedule σ' in ((i, a) :: es, σ'')
      | None => exec key schedule σ
      end
  end.

(** The items handed out in a run. *)
Definition delivered (es : list (nat * action)) : list string := (deliveries es).*2.

(** A table for [mimetypes.guess_type] that knows the suffix [.txt]. *)
Definition txt_table (filename : string) : option string :=
  if String.eqb (substring (String.length filename - 4) 4 filename) ".txt"
  then Some "text/plain" else None.

(** A queue of two items and two workers about to take from it. *)

Definition queue_world : World :=
  {| drive := []; list_faults := ∅; next_id := 0;
     redis := {["gdrive_upload" := {["/data/a.txt"; "/data/b.txt"]}]};
     local_dirs := ∅;
     local_files := {["/data/a.txt" := true; "/data/b.txt" := true]};
     guess_type := txt_table; log := []; stdout := [] |}.

Definition two_workers : system :=
  {| world := queue_world; procs := [Polling (Some "d1") 0; Polling (Some "d1") 0] |}.

(** ** Worlds and values used in the examples *)

(** A drive whose root holds a text file titled ["A"] and nothing else. *)
Definition text_file_A : GoogleDriveFile :=
  {| gd_id := "f1"; gd_title := "A"; gd_mimeType := "text/plain";
     gd_parents := ["root"]; gd_trashed := false |}.

Definition world_with_text_file : World :=
  {| drive := [text_file_A]; list_faults := ∅; next_id := 0; redis := ∅;
     local_dirs := ∅; local_files := ∅; guess_type := λ _, None;
     log := []; stdout := [] |}.

(** A world in which listing the children of the root is refused for a
    reason other than a missing file. *)
Definition rate_limited_world : World :=
  {| drive := []; list_faults := {["root" := "Rate Limit Exceeded"]}; next_id := 0;
     redis := ∅; local_dirs := ∅; local_files := ∅; guess_type := λ _, None;
     log := []; stdout := [] |}.

(** A drive with the folder ["dst"] under the root and a file titled
    ["x.txt"] in it. *)
Definition seeded_world : World :=
  {| drive := [ {| gd_id := "d1"; gd_title := "dst"; gd_mimeType := folder_mimeType;
                   gd_parents := ["root"]; gd_trashed := false |};
                {| gd_id := "f1"; gd_title := "x.txt"; gd_mimeType := "text/plain";
                   gd_parents := ["d1"]; gd_trashed := false |} ];
     list_faults := ∅; next_id := 0; redis := ∅; local_dirs := ∅;
     local_files := ∅; guess_type := λ _, None; log := []; stdout := [] |}.

(** The world [seeded_world] with two local files that have the same name
    in two directories. *)
Definition reports_world : World :=
  {| drive := drive seeded_world; list_faults := ∅; next_id := 0; redis := ∅;
     local_dirs := {["/a" := ["report.txt"]; "/b" := ["report.txt"]]};
     local_files := {["/a/report.txt" := true; "/b/report.txt" := true]};
     guess_type := txt_table; log := []; stdout := [] |}.

(** The file that [upload_file] stores for [local_file] under [dst],
    where [guess] is the table of [mimetypes]. *)
Definition uploaded (guess : string → option string) (n : nat)
    (local_file dst : string) : GoogleDriveFile :=
  {| gd_id := drive_id n; gd_title := Pathlib.name (Path local_file);
     gd_mimeType := BuildMediaBody (guess local_file);
     gd_parents := [dst]; gd_trashed := false |}.

(** The local file [item] can be opened for reading. *)
Definition readable (w : World) (item : string) : Prop :=
  item ≠ "" ∧ local_files w !! item = Some true.

(** A local file system with the directory ["/data"] and three files in
    it, and an empty drive. *)
Definition three_files_world : World :=
  {| drive := []; list_faults := ∅; next_id := 0; redis := ∅;
     local_dirs := {["/data" := ["a.txt"; "b.txt"; "c.txt"]]};
     local_files := {["/data/a.txt" := true; "/data/b.txt" := true;
                      "/data/c.txt" := true]};
     guess_type := txt_table; log := []; stdout := [] |}.

(** The same with a directory ["c"] in the place of the third file. *)
Definition files_and_directory_world : World :=
  {| drive := []; list_faults := ∅; next_id := 0; redis := ∅;
     local_dirs := {["/data" := ["a.txt"; "b.txt"; "c"]; "/data/c" := []]};
     local_files := {["/data/a.txt" := true; "/data/b.txt" := true]};
     guess_type := txt_table; log := []; stdout := [] |}.

(** A local file system with the directory ["/data"] and one entry. *)
Definition data_world : World :=
  {| drive := []; list_faults := ∅; next_id := 0; redis := ∅;
     local_dirs := {["/data" := ["a.txt"]]}; local_files := ∅;
     guess_type := λ _, None; log := []; stdout := [] |}.

(** An engine that compiles every pattern, and a glob selector that finds
    nothing. *)
Definition any_pattern (pattern : string) : option unit := Some ().
Definition any_match (r : unit) (s : string) : bool := true.
Definition no_glob (dirs : gmap string (list string)) (p : PosixPath) (pattern : string)
  : result (list PosixPath) := Ok [].

(** What [re.search] raises when it is given a path object. *)
Definition regex_failure {regex : Type} (re_compile : string → option regex)
    (re_pattern : string) : exn :=
  match re_compile re_pattern with
  | Some _ => TypeError "expected string or bytes-like object, got 'PosixPath'"
  | None => re_error re_pattern
  end.

(** ** [upload_files] and [main] for one process *)

(** The steps of one worker running alone, at most [fuel] of them;
    [choice] gives the choice of the Redis server at each step. The worker
    ends [Returned] when [upload_files] returns and [Crashed e] when it
    raises [e]; any other state means the steps ran out. *)
Fixpoint worker_run (fuel : nat) (choice : nat → nat) (key : string)
    (p : proc) (w : World) : proc * World :=
  match fuel with
  | 0 => (p, w)
  | S fuel =>
      match proc_step key (choice fuel) p w with
      | Some (_, p', w') => worker_run fuel choice key p' w'
      | None => (p, w)
      end
  end.

Definition upload_files (fuel : nat) (choice : nat → nat) (dst_dir key : string)
    (w : World) : proc * World :=
  worker_run fuel choice key (Resolving dst_dir) w.

(** The namespace that [parse_args] returns. *)
Record Args : Type := {
  args_src : option string;
  args_dst : string;
  args_glob : option string;
  args_re : option string;
  args_overwrite_existing : bool
}.

(** The default of the parameter [key]. *)
Definition default_key : string := "gdrive_upload".

(** The part of [main] under [if args.src:]. An empty string is false. *)
Definition seed {regex : Type} (re_compile : string → option regex)
    (regex_search : regex → string → bool)
    (glob_select : gmap string (list string) → PosixPath → string → result (list PosixPath))
    (args : Args) : Py unit :=
  match args_src args with
  | Some src =>
      if String.eqb src "" then ret ()
      else
        let* files := get_local_files re_compile regex_search glob_select (OneDir src)
                        (args_glob args) (args_re args) in
        cache_upload_files files (args_dst args) (args_overwrite_existing args)
          default_key
  | None => ret ()
  end.

Definition main {regex : Type} (re_compile : string → option regex)
    (regex_search : regex → string → bool)
    (glob_select : gmap string (list string) → PosixPath → string → result (list PosixPath))
    (args : Args) (fuel : nat) (choice : nat → nat) (w : World) : proc * World :=
  match seed re_compile regex_search glob_select args w with
  | (Ok _, w') => upload_files fuel choice (args_dst args) default_key w'
  | (Raise e, w') => (Crashed e, w')
  end.

(** ** Views of the world used in the properties *)

(** The drive without its trashed files. *)
Definition purge (w : World) : World :=
  set_drive (filter (λ f, gd_trashed f = false) (drive w)) (next_id w) w.

(** The items that the workers hold. *)
Definition held (ps : list proc) : list string :=
  omap (λ p, match p with Holding _ _ local_file => Some local_file | _ => None end) ps.

(** The items whose upload was started in a run. *)
Definition uploads (es : list (nat * action)) : list string :=
  omap (λ e, match e.2 with Upload local_file => Some local_file | _ => None end) es.

(** The files that uploading the items [order], in that order, adds to
    the drive when the next identifier is [n]. *)
Definition uploaded_files (guess : string → option string) (n : nat) (dst : string)
    (order : list string) : list GoogleDriveFile :=
  imap (λ k local_file, uploaded guess (n + k) local_file dst) order.

(** A folder as [create_gdrive_folder] makes them for one of [segs]. *)
Definition folder_for (segs : list string) (f : GoogleDriveFile) : Prop :=
  gd_mimeType f = folder_mimeType ∧ gd_trashed f = false ∧ gd_title f ∈ segs ∧
  ∃ parent, gd_parents f = [parent].

(** The paths of the entries of directory [d], as [iterdir] yields them;
    none for a directory that does not exist. *)
Definition dir_paths (w : World) (d : string) : list PosixPath :=
  joinpath (Path d) <$> default [] (local_dirs w !! Pathlib.str (Path d)).

(** The item that a worker holds, if it holds one. *)
Definition holds (p : proc) : list string :=
  match p with Holding _ _ local_file => [local_file] | _ => [] end.

(** Two worlds with the same remote drive: the same files, the same next
    identifier and the same listing failures. *)
Definition same_remote (w w2 : World) : Prop :=
  drive w2 = drive w ∧ next_id w2 = next_id w ∧ list_faults w2 = list_faults w.

(** * Properties *)

(** *** Facts about [strip] and [split] *)

Section StrFacts.
Variable c : ascii.

Lemma split_not_nil s : Str.split c s ≠ [].
Proof.
  destruct s as [|a s]; simpl; [done|].
  destruct (Ascii.eqb a c); [done|].
  by destruct (Str.split c s).
Qed.

Lemma split_cons s : ∃ w ws, Str.split c s = w :: ws.
Proof.
  destruct (Str.split c s) as [|w ws] eqn:E; [by apply split_not_nil in E|eauto].
Qed.

Lemma split_step a s :
  Str.split c (String a s) =
    if Ascii.eqb a c then EmptyString :: Str.split c s
    else String a (hd EmptyString (Str.split c s)) :: tl (Str.split c s).
Proof.
  simpl. destruct (Ascii.eqb a c); [done|].
  by destruct (split_cons s) as (w & ws & ->).
Qed.

Lemma contains_sep_cons a w :
  Str.contains (String c EmptyString) (String a w) =
    Ascii.eqb a c || Str.contains (String c EmptyString) w.
Proof.
  cbn [Str.contains String.prefix].
  destruct (ascii_dec c a) as [->|Hne].
  - rewrite Ascii.eqb_refl. by destruct w.
  - destruct (Ascii.eqb_spec a c) as [->|_]; [done|]. by destruct w.
Qed.

(** No piece produced by [split] contains the separator. *)
Lemma split_no_sep s :
  Forall (λ seg, Str.contains (String c EmptyString) seg = false) (Str.split c s).
Proof.
  induction s as [|a s IH]; [by repeat constructor|].
  rewrite split_step. destruct (Ascii.eqb a c) eqn:E.
  - by constructor.
  - destruct (split_cons s) as (w & ws & Hs). rewrite Hs in IH |- *. simpl.
    inversion IH; subst. constructor; [|done].
    by rewrite contains_sep_cons, E.
Qed.

Lemma concat_cons_cons (sep x y : string) l :
  String.concat sep (x :: y :: l) = x +:+ sep +:+ String.concat sep (y :: l).
Proof. reflexivity. Qed.

(** Joining the pieces with the separator gives the string back. *)
Lemma join_split s : Str.join (String c EmptyString) (Str.split c s) = s.
Proof.
  unfold Str.join. induction s as [|a s IH]; [done|].
  rewrite split_step. destruct (split_cons s) as (w & ws & Hs).
  rewrite Hs in IH |- *. destruct (Ascii.eqb_spec a c) as [->|Hne].
  - by rewrite concat_cons_cons, IH.
  - cbn [hd tl]. destruct ws as [|w' ws].
    + simpl in *. by rewrite IH.
    + rewrite concat_cons_cons in *. by rewrite <- IH.
Qed.

Lemma lstrip_starts s : Str.starts_with c (Str.lstrip c s) = false.
Proof.
  induction s as [|a s IH]; [done|]. simpl.
  destruct (Ascii.eqb a c) eqn:E; [done|]. simpl. by rewrite E.
Qed.

Lemma rstrip_cons a s :
  Str.rstrip c (String a s) =
    if String.eqb (Str.rstrip c s) EmptyString && Ascii.eqb a c then EmptyString
    else String a (Str.rstrip c s).
Proof. simpl. destruct (Str.rstrip c s); [by destruct (Ascii.eqb a c)|done]. Qed.

Lemma rstrip_ends s : Str.ends_with c (Str.rstrip c s) = false.
Proof.
  induction s as [|a s IH]; [done|].
  rewrite rstrip_cons. destruct (Str.rstrip c s) as [|b r] eqn:E; simpl.
  - by destruct (Ascii.eqb a c) eqn:Ea; simpl; [|rewrite Ea].
  - exact IH.
Qed.

Lemma rstrip_starts s :
  Str.starts_with c s = false → Str.starts_with c (Str.rstrip c s) = false.
Proof.
  destruct s as [|a s]; [done|]. simpl. intros E.
  destruct (Str.rstrip c s); simpl; by rewrite E.
Qed.

Lemma strip_starts s : Str.starts_with c (Str.strip c s) = false.
Proof. apply rstrip_starts, lstrip_starts. Qed.

Lemma strip_ends s : Str.ends_with c (Str.strip c s) = false.
Proof. apply rstrip_ends. Qed.

Lemma contains_twice_cons a s :
  Str.contains (String c (String c EmptyString)) (String a s) =
    (Ascii.eqb a c && Str.starts_with c s)
    || Str.contains (String c (String c EmptyString)) s.
Proof.
  cbn [Str.contains String.prefix]. f_equal.
  destruct (ascii_dec c a) as [->|Hne].
  - rewrite Ascii.eqb_refl. destruct s as [|b s]; [done|]. simpl.
    destruct (ascii_dec a b) as [->|Hne].
    + rewrite Ascii.eqb_refl. by destruct s.
    + by destruct (Ascii.eqb_spec b a) as [->|_].
  - by destruct (Ascii.eqb_spec a c) as [->|_].
Qed.

Lemma hd_split_nonempty s :
  hd EmptyString (Str.split c s) ≠ EmptyString ↔
  s ≠ EmptyString ∧ Str.starts_with c s = false.
Proof.
  destruct s as [|a s]; simpl; [naive_solver|].
  destruct (Ascii.eqb a c); simpl; [naive_solver|].
  destruct (Str.split c s); naive_solver.
Qed.

(** The pieces after the first are all non-empty exactly when the string
    neither ends with the separator nor has two separators in a row. *)
Lemma tl_split_nonempty s :
  Forall (λ seg, seg ≠ EmptyString) (tl (Str.split c s)) ↔
  Str.ends_with c s = false ∧
  Str.contains (String c (String c EmptyString)) s = false.
Proof.
  induction s as [|a s IH]; [by split; [|constructor]|].
  rewrite split_step, contains_twice_cons.
  destruct (Ascii.eqb a c) eqn:E; cbn [tl andb orb].
  - destruct (split_cons s) as (w & ws & Hs).
    assert (Hhd := hd_split_nonempty s).
    rewrite Hs in IH, Hhd |- *. cbn [tl hd] in IH, Hhd.
    rewrite Forall_cons, IH, Hhd.
    destruct s as [|b s]; [simpl; rewrite E; naive_solver|].
    cbn [Str.ends_with Str.starts_with] in *.
    destruct (Ascii.eqb b c); simpl; naive_solver.
  - rewrite IH. destruct s as [|b s]; [simpl; rewrite E; naive_solver|].
    cbn [Str.ends_with]. naive_solver.
Qed.

Lemma split_nonempty s :
  Forall (λ seg, seg ≠ EmptyString) (Str.split c s) ↔
  s ≠ EmptyString ∧ Str.starts_with c s = false ∧ Str.ends_with c s = false ∧
  Str.contains (String c (String c EmptyString)) s = false.
Proof.
  assert (Hhd := hd_split_nonempty s). assert (Htl := tl_split_nonempty s).
  destruct (split_cons s) as (w & ws & Hs). rewrite Hs in Hhd, Htl |- *.
  cbn [hd tl] in *. rewrite Forall_cons. naive_solver.
Qed.

End StrFacts.

(** What [lstrip] and [rstrip] remove is a run of slashes. *)
Lemma lstrip_slashes s : ∃ n, s = slashes n +:+ Str.lstrip "/" s.
Proof.
  induction s as [|a s [n IH]]; [by exists 0|].
  cbn [Str.lstrip]. destruct (Ascii.eqb_spec a "/") as [->|_].
  - exists (S n). cbn [slashes]. change (String "/" s = String "/" (slashes n +:+ Str.lstrip "/" s)).
    by rewrite <- IH.
  - by exists 0.
Qed.

Lemma rstrip_slashes s : ∃ m, s = Str.rstrip "/" s +:+ slashes m.
Proof.
  induction s as [|a s [m IH]]; [by exists 0|].
  cbn [Str.rstrip]. destruct (Str.rstrip "/" s) as [|b r].
  - change (EmptyString +:+ slashes m) with (slashes m) in IH. subst s.
    destruct (Ascii.eqb_spec a "/") as [->|_]; [by exists (S m)|by exists m].
  - exists m. change (String a s = String a (String b r +:+ slashes m)). by rewrite <- IH.
Qed.

Lemma slashes_app n m : slashes n +:+ slashes m = slashes (n + m).
Proof.
  induction n as [|n IH]; [done|].
  change (String "/" (slashes n +:+ slashes m) = String "/" (slashes (n + m))).
  by rewrite IH.
Qed.

Lemma strip_slashes k : Str.strip "/" (slashes k) = "".
Proof. unfold Str.strip. by induction k as [|k IH]. Qed.

(** C8 (as amended). For every destination string, [get_folder_id] strips the
    leading and trailing slashes: the string is a run of slashes, the
    stripped string and a run of slashes, and the stripped string neither
    starts nor ends with a slash; it is empty exactly for the strings made
    of slashes only, the empty string among them. The stripped string is
    split at every remaining slash: the resulting sequence is never empty
    (for the empty string and for slashes only it is the single empty
    segment, and for no other string), its segments contain no slash and
    joined by slashes give the stripped string back, in order; and all
    segments are non-empty exactly when the stripped string is non-empty and
    has no two adjacent slashes. *)
Theorem destination_path_segments (folder_path : string) :
  let stripped := Str.strip "/" folder_path in
  (∃ n m, folder_path = slashes n +:+ stripped +:+ slashes m) ∧
  Str.starts_with "/" stripped = false ∧ Str.ends_with "/" stripped = false ∧
  (stripped = "" ↔ ∃ k, folder_path = slashes k) ∧
  (destination_path folder_path = [""] ↔ ∃ k, folder_path = slashes k) ∧
  destination_path folder_path ≠ [] ∧
  Forall (λ seg, Str.contains "/" seg = false) (destination_path folder_path) ∧
  Str.join "/" (destination_path folder_path) = stripped ∧
  (Forall (λ seg, seg ≠ "") (destination_path folder_path) ↔
   stripped ≠ "" ∧ Str.contains "//" stripped = false).
Proof.
  unfold destination_path. cbn zeta.
  assert (Hrun : ∃ n m, folder_path
                        = slashes n +:+ Str.strip "/" folder_path +:+ slashes m).
  { destruct (lstrip_slashes folder_path) as [n Hn].
    destruct (rstrip_slashes (Str.lstrip "/" folder_path)) as [m Hm].
    exists n, m. unfold Str.strip. by rewrite <- Hm. }
  assert (Hempty : Str.strip "/" folder_path = "" ↔ ∃ k, folder_path = slashes k).
  { split.
    - intros Hs. destruct Hrun as (n & m & Hrun). rewrite Hs in Hrun.
      exists (n + m). by rewrite <- slashes_app.
    - intros [k ->]. apply strip_slashes. }
  split; [exact Hrun|].
  split; [apply strip_starts|]. split; [apply strip_ends|].
  split; [exact Hempty|]. split.
  { rewrite <- Hempty. split.
    - intros Hs. by rewrite <- (join_split "/" (Str.strip "/" folder_path)), Hs.
    - by intros ->. }
  split; [apply split_not_nil|].
  split; [apply split_no_sep|].
  split; [apply join_split|].
  rewrite split_nonempty.
  pose proof (strip_starts "/" folder_path).
  pose proof (strip_ends "/" folder_path).
  naive_solver.
Qed.

(** C8, counterexample: ["a//b"] is neither empty nor a bare slash, yet its
    parsed sequence has an empty segment. *)
Lemma destination_path_empty_segment :
  "a//b" ≠ "" ∧ "a//b" ≠ "/" ∧
  destination_path "a//b" = ["a"; ""; "b"] ∧
  ¬ Forall (λ seg, seg ≠ "") (destination_path "a//b").
Proof.
  repeat split; try done.
  intros H. vm_compute in H.
  inversion H as [|? ? _ H']; subst. inversion H' as [|? ? Hne _]; subst. by apply Hne.
Qed.

(** *** Facts about the resolution *)

(** One call of [search_file_tree] when the listing does not fail. *)
Lemma search_file_tree_cons dst s rest parent w :
  list_faults w !! parent = None →
  search_file_tree dst (s :: rest) parent w =
    let w0 := info ("Searching for folder: " +:+ s) w in
    match find (by_title s) (children parent (drive w)) with
    | Some file =>
        let w1 := info ("Found folder: " +:+ s) w0 in
        if String.eqb s dst
        then (Ok (Some (gd_id file)),
              info ("Found destination folder id: " +:+ gd_id file) w1)
        else search_file_tree dst rest (gd_id file) w1
    | None =>
        let i := drive_id (next_id w) in
        let w1 := info ("Created new folder (" +:+ s +:+ ") with id " +:+ i
                        +:+ ", parent id " +:+ parent)
                    (set_drive (drive w ++ [new_folder (next_id w) s parent])
                       (S (next_id w)) w0) in
        if String.eqb s dst
        then (Ok (Some i), info ("Found destination folder id: " +:+ i) w1)
        else search_file_tree dst rest i w1
    end.
Proof.
  intros Hf. cbn [search_file_tree].
  unfold bind at 1. cbn [logger_info].
  unfold bind at 1. unfold try_list, ListFile_GetList. cbn [list_faults set_log].
  rewrite Hf. cbn [drive set_log]. fold (by_title s).
  destruct (find (by_title s) (children parent (drive w))) as [file|].
  - unfold bind at 1. cbn [logger_info].
    destruct (String.eqb s dst); reflexivity.
  - unfold create_gdrive_folder, bind at 1. unfold bind at 1. unfold CreateFile_Upload.
    cbn. destruct (String.eqb s dst); reflexivity.
Qed.

Lemma find_app {A} (f : A → bool) (l l' : list A) :
  find f (l ++ l') = match find f l with Some a => Some a | None => find f l' end.
Proof. induction l as [|a l IH]; [done|]. simpl. by destruct (f a). Qed.

Lemma children_app parent fs fs' :
  children parent (fs ++ fs') = children parent fs ++ children parent fs'.
Proof. apply filter_app. Qed.

Lemma children_new_folder n s parent :
  children parent [new_folder n s parent] = [new_folder n s parent].
Proof.
  unfold children. rewrite filter_cons_True; [done|].
  split; [apply list_elem_of_singleton|]; done.
Qed.

(** A child found in a listing is still the one found after files are added
    to the drive. *)
Lemma find_child_stable s parent fs ext file :
  find (by_title s) (children parent fs) = Some file →
  find (by_title s) (children parent (fs ++ ext)) = Some file.
Proof. intros H. by rewrite children_app, find_app, H. Qed.

(** A folder created because no child had the name is the child found
    afterwards. *)
Lemma find_child_created s parent fs n ext :
  find (by_title s) (children parent fs) = None →
  find (by_title s) (children parent ((fs ++ [new_folder n s parent]) ++ ext))
  = Some (new_folder n s parent).
Proof.
  intros H. rewrite !children_app, !find_app, H, children_new_folder.
  simpl. unfold by_title. simpl. by rewrite String.eqb_refl.
Qed.

Lemma no_faults_lookup w parent : list_faults w = ∅ → list_faults w !! parent = None.
Proof. intros ->. apply lookup_empty. Qed.

(** When no listing fails, [search_file_tree] returns; it only adds files to
    the drive, and it returns an identifier whenever the destination name is
    among the segments left. *)
Lemma search_file_tree_ok dst segs parent w :
  list_faults w = ∅ →
  ∃ r w', search_file_tree dst segs parent w = (Ok r, w') ∧
          list_faults w' = ∅ ∧ redis w' = redis w ∧
          (∃ ext, drive w' = drive w ++ ext) ∧
          (dst ∈ segs → is_Some r).
Proof.
  revert parent w. induction segs as [|s rest IH]; intros parent w Hf.
  - exists None, w. repeat split; try done.
    + exists []. by rewrite app_nil_r.
    + by intros ?%elem_of_nil.
  - rewrite search_file_tree_cons by by apply no_faults_lookup. cbn zeta.
    destruct (find (by_title s) (children parent (drive w))) as [file|].
    + destruct (String.eqb_spec s dst) as [->|Hne].
      * eexists _, _. repeat split; try done.
        exists []. by rewrite app_nil_r.
      * edestruct (IH (gd_id file)) as (r & w' & -> & ? & ? & ? & Hr); [exact Hf|].
        exists r, w'. repeat split; try done.
        intros [?|?]%elem_of_cons; [congruence|by apply Hr].
    + destruct (String.eqb_spec s dst) as [->|Hne].
      * eexists _, _. repeat split; try done; by eauto.
      * edestruct (IH (drive_id (next_id w))) as (r & w' & -> & ? & ? & [ext Hd] & Hr);
          [exact Hf|].
        exists r, w'. repeat split; try done.
        -- eexists. rewrite Hd. cbn. by rewrite <- app_assoc.
        -- intros [?|?]%elem_of_cons; [congruence|by apply Hr].
Qed.

(** A second resolution of the same segments, on a drive that has all the
    files the first one left and possibly more, returns the same result and
    creates nothing. *)
Lemma search_file_tree_again dst segs parent w r w' :
  list_faults w = ∅ →
  search_file_tree dst segs parent w = (Ok r, w') →
  ∀ w2 ext, list_faults w2 = ∅ → drive w2 = drive w' ++ ext →
    ∃ w3, search_file_tree dst segs parent w2 = (Ok r, w3) ∧
          drive w3 = drive w2 ∧ next_id w3 = next_id w2.
Proof.
  revert parent w. induction segs as [|s rest IH]; intros parent w Hf Hrun w2 ext Hf2 Hd.
  - injection Hrun as <- <-. by exists w2.
  - rewrite search_file_tree_cons in Hrun by by apply no_faults_lookup.
    rewrite search_file_tree_cons by by apply no_faults_lookup.
    cbn zeta in *.
    destruct (find (by_title s) (children parent (drive w))) as [file|] eqn:Hfind.
    + destruct (String.eqb s dst) eqn:Hdst.
      * injection Hrun as <- <-. cbn in Hd.
        assert (find (by_title s) (children parent (drive w2)) = Some file) as ->
          by (rewrite Hd; by apply find_child_stable).
        by eexists.
      * match type of Hrun with search_file_tree _ _ ?p ?w1 = _ =>
          destruct (search_file_tree_ok dst rest p w1)
            as (r0 & w0 & Hrun0 & _ & _ & [ext0 Hd0] & _); [exact Hf|] end.
        rewrite Hrun in Hrun0. injection Hrun0 as <- <-. cbn in Hd0.
        assert (find (by_title s) (children parent (drive w2)) = Some file) as ->
          by (rewrite Hd, Hd0, <- app_assoc; by apply find_child_stable).
        eapply IH in Hrun as (w3 & -> & ? & ?); [by exists w3| exact Hf | exact Hf2 | exact Hd].
    + destruct (String.eqb s dst) eqn:Hdst.
      * injection Hrun as <- <-. cbn in Hd.
        assert (find (by_title s) (children parent (drive w2))
                = Some (new_folder (next_id w) s parent)) as ->
          by (rewrite Hd; by apply find_child_created).
        by eexists.
      * match type of Hrun with search_file_tree _ _ ?p ?w1 = _ =>
          destruct (search_file_tree_ok dst rest p w1)
            as (r0 & w0 & Hrun0 & _ & _ & [ext0 Hd0] & _); [exact Hf|] end.
        rewrite Hrun in Hrun0. injection Hrun0 as <- <-. cbn in Hd0.
        assert (find (by_title s) (children parent (drive w2))
                = Some (new_folder (next_id w) s parent)) as ->
          by (rewrite Hd, Hd0, <- app_assoc; by apply find_child_created).
        eapply IH in Hrun as (w3 & -> & ? & ?); [by exists w3| exact Hf | exact Hf2 | exact Hd].
Qed.

Lemma last_elem_of {A} (l : list A) (a : A) : last l = Some a → a ∈ l.
Proof.
  intros H. apply list_elem_of_lookup. exists (pred (List.length l)).
  by rewrite <- last_lookup.
Qed.

(** When no listing fails, [get_folder_id] returns an identifier, never
    [None]. *)
Lemma get_folder_id_ok folder_path w :
  list_faults w = ∅ →
  ∃ i w', get_folder_id folder_path w = (Ok (Some i), w') ∧
          list_faults w' = ∅ ∧ redis w' = redis w ∧
          ∃ ext, drive w' = drive w ++ ext.
Proof.
  intros Hf. unfold get_folder_id.
  destruct (last (destination_path folder_path)) as [dst|] eqn:Hlast.
  - unfold bind at 1. cbn [logger_info].
    edestruct (search_file_tree_ok dst (destination_path folder_path) "root")
      as (r & w' & -> & ? & ? & ? & Hr); [exact Hf|].
    destruct Hr as [i ->]; [by apply last_elem_of|]. by exists i, w'.
  - apply last_None in Hlast. by apply split_not_nil in Hlast.
Qed.

(** C6. For every destination path and every world in which no listing
    fails, [get_folder_id] called twice in a row returns a folder identifier
    the first time and the same identifier the second time, and the second
    call leaves the files of the drive as the first call left them: it
    creates no folder. *)
Theorem get_folder_id_idempotent (folder_path : string) (w : World) :
  list_faults w = ∅ →
  ∃ i w1 w2,
    get_folder_id folder_path w = (Ok (Some i), w1) ∧
    get_folder_id folder_path w1 = (Ok (Some i), w2) ∧
    drive w2 = drive w1 ∧ next_id w2 = next_id w1.
Proof.
  intros Hf.
  destruct (get_folder_id_ok folder_path w Hf) as (i & w1 & Hrun & Hf1 & _ & _).
  exists i, w1. rewrite Hrun. unfold get_folder_id in *.
  destruct (last (destination_path folder_path)) as [dst|]; [|done].
  unfold bind at 1 in Hrun. unfold bind at 1. cbn [logger_info] in *.
  eapply search_file_tree_again
    with (ext := []) (w2 := info ("Searching for folder '" +:+ dst +:+ "' id") w1)
    in Hrun as (w2 & Hrun2 & Hd & Hn);
    [| exact Hf | exact Hf1 | by rewrite app_nil_r].
  exists w2. eauto.
Qed.

(** C6, at a path whose folders do not exist yet. *)
Lemma get_folder_id_idempotent_witness :
  list_faults empty_world = ∅ ∧
  ∃ i w1 w2,
    get_folder_id "backup/2024" empty_world = (Ok (Some i), w1) ∧
    get_folder_id "backup/2024" w1 = (Ok (Some i), w2) ∧
    drive w2 = drive w1 ∧ next_id w2 = next_id w1.
Proof. split; [reflexivity | apply (get_folder_id_idempotent "backup/2024" empty_world); reflexivity]. Defined.

(** When no listing fails, [search_file_tree] is the walk of the spec, with
    children matched by title alone, over the segments up to the first one
    that has the destination name; the segments after it are not visited. *)
Lemma search_file_tree_first_match dst pre rest parent w :
  list_faults w = ∅ → dst ∉ pre →
  ∃ w', search_file_tree dst (pre ++ dst :: rest) parent w
        = (Ok (Some (resolve_spec by_title (pre ++ [dst]) parent (drive w) (next_id w)).1), w') ∧
        (drive w', next_id w')
        = (resolve_spec by_title (pre ++ [dst]) parent (drive w) (next_id w)).2 ∧
        list_faults w' = ∅.
Proof.
  revert parent w. induction pre as [|s pre IH]; intros parent w Hf Hpre.
  - cbn [app]. rewrite search_file_tree_cons by by apply no_faults_lookup.
    cbn zeta. cbn [resolve_spec]. rewrite String.eqb_refl.
    destruct (find (by_title dst) (children parent (drive w))); by eexists.
  - apply not_elem_of_cons in Hpre as [Hne Hpre].
    cbn [app]. rewrite search_file_tree_cons by by apply no_faults_lookup.
    cbn zeta. cbn [resolve_spec].
    destruct (String.eqb_spec s dst) as [->|_]; [done|].
    destruct (find (by_title s) (children parent (drive w))) as [file|].
    + match goal with |- context [search_file_tree _ _ ?p ?w1] =>
        exact (IH p w1 Hf Hpre) end.
    + match goal with |- context [search_file_tree _ _ ?p ?w1] =>
        exact (IH p w1 Hf Hpre) end.
Qed.

Lemma get_folder_id_first_match folder_path pre dst rest w :
  list_faults w = ∅ →
  destination_path folder_path = pre ++ dst :: rest →
  last (dst :: rest) = Some dst → dst ∉ pre →
  ∃ w', get_folder_id folder_path w
        = (Ok (Some (resolve_spec by_title (pre ++ [dst]) "root" (drive w) (next_id w)).1), w') ∧
        (drive w', next_id w')
        = (resolve_spec by_title (pre ++ [dst]) "root" (drive w) (next_id w)).2 ∧
        list_faults w' = ∅.
Proof.
  intros Hf Hpath Hlast Hpre. unfold get_folder_id.
  rewrite Hpath, last_app, Hlast.
  unfold bind at 1. cbn [logger_info].
  match goal with |- context [search_file_tree _ _ ?p ?w1] =>
    exact (search_file_tree_first_match dst pre rest p w1 Hf Hpre) end.
Qed.

Lemma get_folder_id_walk folder_path pre dst w :
  list_faults w = ∅ →
  destination_path folder_path = pre ++ [dst] → dst ∉ pre →
  ∃ w', get_folder_id folder_path w
        = (Ok (Some (resolve_spec by_title (pre ++ [dst]) "root" (drive w) (next_id w)).1), w') ∧
        (drive w', next_id w')
        = (resolve_spec by_title (pre ++ [dst]) "root" (drive w) (next_id w)).2 ∧
        list_faults w' = ∅.
Proof.
  intros Hf Hpath Hpre. by apply (get_folder_id_first_match folder_path pre dst []).
Qed.

(** C4 (as amended). When no listing fails and the name of the final segment
    occurs at no earlier segment, [get_folder_id] does at each segment what
    [resolve_spec by_title] does: it descends into the first child of the
    current folder, in listing order, whose title equals the segment,
    whatever the type of that child, and when no child has that title it
    creates a folder with that name under the current folder and descends
    into the new folder. It returns the identifier reached after the last
    segment and leaves the drive as that walk leaves it. *)
Theorem get_folder_id_descends_by_title (folder_path : string) (pre : list string)
    (dst : string) (w : World) :
  list_faults w = ∅ →
  destination_path folder_path = pre ++ [dst] → dst ∉ pre →
  ∃ w', get_folder_id folder_path w
        = (Ok (Some (resolve_spec by_title (pre ++ [dst]) "root" (drive w) (next_id w)).1), w') ∧
        (drive w', next_id w')
        = (resolve_spec by_title (pre ++ [dst]) "root" (drive w) (next_id w)).2.
Proof.
  intros Hf Hpath Hpre.
  destruct (get_folder_id_walk folder_path pre dst w Hf Hpath Hpre) as (w' & ? & ? & _).
  by exists w'.
Qed.

(** C4, at the path ["A/B"] on a drive whose root holds a text file titled
    ["A"]. *)
Lemma get_folder_id_descends_by_title_witness :
  list_faults world_with_text_file = ∅ ∧
  destination_path "A/B" = (["A"] ++ ["B"]) ∧ ("B" ∉ ["A"]) ∧
  ∃ w', get_folder_id "A/B" world_with_text_file
        = (Ok (Some (resolve_spec by_title (["A"] ++ ["B"]) "root"
                       (drive world_with_text_file) (next_id world_with_text_file)).1), w') ∧
        (drive w', next_id w')
        = (resolve_spec by_title (["A"] ++ ["B"]) "root"
             (drive world_with_text_file) (next_id world_with_text_file)).2.
Proof.
  assert (H : "B" ∉ ["A"]) by (intros HB; apply list_elem_of_singleton in HB; discriminate HB).
  split; [reflexivity|]. split; [reflexivity|]. split; [exact H|].
  apply (get_folder_id_descends_by_title "A/B" ["A"] "B" world_with_text_file);
    [reflexivity | reflexivity | exact H].
Defined.

(** C4, counterexample: the root holds a text file titled ["A"] and no
    folder. Resolving ["A/B"] descends into the text file: no folder ["A"]
    is created and folder ["B"] is created with the text file as its parent.
    The walk that descends only into children of folder type creates a
    folder ["A"] under the root and ["B"] under it. *)
Lemma get_folder_id_descends_into_text_file :
  gd_mimeType text_file_A ≠ folder_mimeType ∧
  (get_folder_id "A/B" world_with_text_file).1 = Ok (Some "id0") ∧
  drive (get_folder_id "A/B" world_with_text_file).2
  = [text_file_A; new_folder 0 "B" "f1"] ∧
  resolve_spec by_title_and_type ["A"; "B"] "root" [text_file_A] 0
  = ("id1", ([text_file_A; new_folder 0 "A" "root"; new_folder 1 "B" "id0"], 2)).
Proof. split; [discriminate|]. by vm_compute. Qed.

(** C1, what the code does: when no listing fails, [get_folder_id] stops at
    the first segment that has the name [dst] of the final segment. It
    returns the folder that the walk reaches over the segments up to that
    one, and the segments [rest] after it, the final segment included, are
    neither visited nor created. *)
Theorem get_folder_id_stops_at_first_match (folder_path : string)
    (pre : list string) (dst : string) (rest : list string) (w : World) :
  list_faults w = ∅ →
  destination_path folder_path = pre ++ dst :: rest →
  last (dst :: rest) = Some dst → dst ∉ pre →
  ∃ w', get_folder_id folder_path w
        = (Ok (Some (resolve_spec by_title (pre ++ [dst]) "root" (drive w) (next_id w)).1), w') ∧
        (drive w', next_id w')
        = (resolve_spec by_title (pre ++ [dst]) "root" (drive w) (next_id w)).2.
Proof.
  intros Hf Hpath Hlast Hpre.
  destruct (get_folder_id_first_match folder_path pre dst rest w Hf Hpath Hlast Hpre)
    as (w' & ? & ? & _).
  by exists w'.
Qed.

(** C1, at the failing input ["A/A"] on an empty drive: the result is the
    walk over the first segment alone. *)
Lemma get_folder_id_stops_at_first_match_witness :
  list_faults empty_world = ∅ ∧
  destination_path "A/A" = [] ++ "A" :: ["A"] ∧
  last ("A" :: ["A"]) = Some "A" ∧ ("A" ∉ @nil string) ∧
  ∃ w', get_folder_id "A/A" empty_world
        = (Ok (Some (resolve_spec by_title ([] ++ ["A"]) "root" (drive empty_world)
                       (next_id empty_world)).1), w') ∧
        (drive w', next_id w')
        = (resolve_spec by_title ([] ++ ["A"]) "root" (drive empty_world)
             (next_id empty_world)).2.
Proof.
  split; [reflexivity|]. split; [reflexivity|]. split; [reflexivity|].
  split; [apply not_elem_of_nil|].
  apply (get_folder_id_stops_at_first_match "A/A" [] "A" ["A"] empty_world);
    [reflexivity | reflexivity | reflexivity | apply not_elem_of_nil].
Defined.

(** The same input evaluated: on an empty drive, resolving ["A/A"] creates
    the folder ["A"] under the root and returns it at the first segment,
    because that segment has the name of the last one. The folder of the
    final segment, ["A"] under ["A"], which the walk over both segments
    reaches, is neither created nor returned. *)
Lemma get_folder_id_repeated_name :
  (get_folder_id "A/A" empty_world).1 = Ok (Some "id0") ∧
  drive (get_folder_id "A/A" empty_world).2 = [new_folder 0 "A" "root"] ∧
  resolve_spec by_title ["A"; "A"] "root" [] 0
  = ("id1", ([new_folder 0 "A" "root"; new_folder 1 "A" "id0"], 2)).
Proof. by vm_compute. Qed.

(** *** Identifiers assigned by the drive *)

Lemma drive_id_inj n m : drive_id n = drive_id m → n = m.
Proof. unfold drive_id. intros H. injection H as H. by apply pretty_nat_inj in H. Qed.

Lemma drive_id_not_root n : drive_id n ≠ "root".
Proof. discriminate. Qed.

Lemma children_cons parent f fs :
  children parent (f :: fs) =
    if decide (parent ∈ gd_parents f ∧ gd_trashed f = false)
    then f :: children parent fs else children parent fs.
Proof. unfold children. by rewrite filter_cons. Qed.

Lemma children_nil parent : children parent [] = [].
Proof. done. Qed.

(** The children of [parent] among folders made by [new_folder]. *)
Lemma children_new_folder_cons parent n s p fs :
  children parent (new_folder n s p :: fs) =
    if decide (parent = p) then new_folder n s p :: children parent fs
    else children parent fs.
Proof.
  rewrite children_cons. cbn [new_folder gd_parents gd_trashed].
  destruct (decide (parent = p)) as [->|Hne].
  - rewrite decide_True; [done|]. split; [apply list_elem_of_singleton|]; done.
  - rewrite decide_False; [done|]. by intros [?%list_elem_of_singleton _].
Qed.

Lemma gd_id_new_folder n s p : gd_id (new_folder n s p) = drive_id n.
Proof. done. Qed.

Lemma find_new_folder s' s n p l :
  find (by_title s) (new_folder n s' p :: l) =
    if String.eqb s' s then Some (new_folder n s' p) else find (by_title s) l.
Proof. done. Qed.

Ltac decide_ids :=
  repeat match goal with
    | |- context [decide (?a = ?b)] =>
        first
          [ rewrite (decide_True (P := a = b)) by reflexivity
          | rewrite (decide_False (P := a = b))
              by (first [ apply drive_id_not_root
                        | apply not_eq_sym, drive_id_not_root
                        | intros Hid%drive_id_inj; lia ]) ]
    end.

Ltac walk_step :=
  rewrite ?gd_id_new_folder, ?children_new_folder_cons, ?children_nil;
  decide_ids; rewrite ?find_new_folder;
  cbn [String.eqb Ascii.eqb Bool.eqb find]; cbn match.

(** C5. On a drive without files on which no listing fails, resolving
    ["A/B/C"] creates exactly three folders, [A] under the root, [B] under
    [A] and [C] under [B], and returns the identifier of [C]; resolving
    ["A/B/D"] afterwards creates only [D], under the [B] that exists, and
    returns its identifier. The identifiers of the four folders are distinct
    and differ from the root. *)
Theorem tree_creation (w : World) :
  drive w = [] → list_faults w = ∅ →
  let n := next_id w in
  let A := new_folder n "A" "root" in
  let B := new_folder (n + 1) "B" (gd_id A) in
  let C := new_folder (n + 2) "C" (gd_id B) in
  let D := new_folder (n + 3) "D" (gd_id B) in
  ∃ w1 w2,
    get_folder_id "A/B/C" w = (Ok (Some (gd_id C)), w1) ∧ drive w1 = [A; B; C] ∧
    get_folder_id "A/B/D" w1 = (Ok (Some (gd_id D)), w2) ∧ drive w2 = [A; B; C; D] ∧
    NoDup ["root"; gd_id A; gd_id B; gd_id C; gd_id D].
Proof.
  intros Hd Hf n A B C D.
  assert (HC : "C" ∉ ["A"; "B"]) by (rewrite !not_elem_of_cons; by repeat split; try apply not_elem_of_nil).
  assert (HD : "D" ∉ ["A"; "B"]) by (rewrite !not_elem_of_cons; by repeat split; try apply not_elem_of_nil).
  destruct (get_folder_id_walk "A/B/C" ["A"; "B"] "C" w Hf eq_refl HC)
    as (w1 & Hrun1 & Hw1 & Hf1).
  destruct (get_folder_id_walk "A/B/D" ["A"; "B"] "D" w1 Hf1 eq_refl HD)
    as (w2 & Hrun2 & Hw2 & _).
  assert (Hwalk1 : resolve_spec by_title ["A"; "B"; "C"] "root" (drive w) (next_id w)
                   = (gd_id C, ([A; B; C], n + 3))).
  { rewrite Hd. fold n. cbn [resolve_spec app]. do 3 walk_step.
    subst A B C. rewrite !gd_id_new_folder.
    by replace (S n) with (n + 1) by lia; replace (S (n + 1)) with (n + 2) by lia;
       replace (S (n + 2)) with (n + 3) by lia. }
  cbn [app] in Hrun1, Hw1. rewrite Hwalk1 in Hrun1, Hw1. cbn [fst snd] in Hrun1, Hw1.
  injection Hw1 as Hd1 Hn1.
  assert (Hwalk2 : resolve_spec by_title ["A"; "B"; "D"] "root" (drive w1) (next_id w1)
                   = (gd_id D, ([A; B; C; D], S (n + 3)))).
  { rewrite Hd1, Hn1. subst A B C D. cbn [resolve_spec]. by do 3 walk_step. }
  cbn [app] in Hrun2, Hw2. rewrite Hwalk2 in Hrun2, Hw2. cbn [fst snd] in Hrun2, Hw2.
  injection Hw2 as Hd2 Hn2.
  exists w1, w2. repeat split; try done.
  subst A B C D. rewrite !gd_id_new_folder.
  repeat (apply NoDup_cons; split;
          [rewrite ?not_elem_of_cons; repeat split; try apply not_elem_of_nil;
           first [ apply not_eq_sym, drive_id_not_root | intros Hid%drive_id_inj; lia ] |]).
  apply NoDup_nil_2.
Qed.

(** C5, on the empty drive. *)
Lemma tree_creation_witness :
  drive empty_world = [] ∧ list_faults empty_world = ∅ ∧
  ∃ w1 w2,
    get_folder_id "A/B/C" empty_world = (Ok (Some "id2"), w1) ∧
    drive w1 = [new_folder 0 "A" "root"; new_folder 1 "B" "id0"; new_folder 2 "C" "id1"] ∧
    get_folder_id "A/B/D" w1 = (Ok (Some "id3"), w2) ∧
    drive w2 = [new_folder 0 "A" "root"; new_folder 1 "B" "id0"; new_folder 2 "C" "id1";
                new_folder 3 "D" "id1"] ∧
    NoDup ["root"; "id0"; "id1"; "id2"; "id3"].
Proof.
  split; [reflexivity|]. split; [reflexivity|].
  exact (tree_creation empty_world eq_refl eq_refl).
Defined.

(** *** Listing failures *)

(** C3, what the code does when the listing of the current parent raises an
    [HttpError]: whatever the content of the response, the handler hands
    the bytes of [e.content] to [ast.literal_eval], which refuses them, so
    [search_file_tree] raises a [ValueError] whose message is made of the
    content alone and does not name the segment. The tests for "file not
    found" and the call of [logger.error] are never reached: nothing is
    logged after the line that announces the search, no folder is created
    and the resolution does not continue. *)
Theorem search_file_tree_listing_failure (dst s : string) (rest : list string)
    (parent : string) (w : World) (content : string) :
  list_faults w !! parent = Some content →
  search_file_tree dst (s :: rest) parent w =
    (Raise (ValueError ("malformed node or string: " +:+ bytes_repr content)),
     set_log (log w ++ [(INFO, "Searching for folder: " +:+ s)]) w).
Proof.
  intros Hfault. cbn [search_file_tree].
  unfold bind at 1. cbn [logger_info].
  unfold bind at 1. unfold try_list, ListFile_GetList. cbn [list_faults set_log].
  by rewrite Hfault.
Qed.

(** C3, at the failing input: the listing of the root fails with "Rate Limit
    Exceeded" while ["A"] is resolved. Nothing is created, the failure is
    not logged, and the call ends in a [ValueError]. *)
Lemma search_file_tree_listing_failure_witness :
  list_faults rate_limited_world !! "root" = Some "Rate Limit Exceeded" ∧
  search_file_tree "A" ["A"] "root" rate_limited_world =
    (Raise (ValueError "malformed node or string: b'Rate Limit Exceeded'"),
     set_log [(INFO, "Searching for folder: A")] rate_limited_world).
Proof.
  split; [reflexivity|].
  exact (search_file_tree_listing_failure "A" "A" [] "root" rate_limited_world
           "Rate Limit Exceeded" eq_refl).
Defined.

(** The same input through [get_folder_id]: the drive is left as it was. *)
Lemma get_folder_id_rate_limited :
  (get_folder_id "A" rate_limited_world).1 =
    Raise (ValueError "malformed node or string: b'Rate Limit Exceeded'") ∧
  drive (get_folder_id "A" rate_limited_world).2 = [] ∧
  log (get_folder_id "A" rate_limited_world).2 =
    [(INFO, "Searching for folder 'A' id"); (INFO, "Searching for folder: A")].
Proof. by vm_compute. Qed.

(** A listing that fails with a missing file, with the body that the
    service sends: the [ValueError] does not name the segment. *)
Lemma get_folder_id_not_found :
  let w := {| drive := [];
              list_faults := {["root" := "{'error': {'message': 'File not found: root'}}"]};
              next_id := 0; redis := ∅; local_dirs := ∅; local_files := ∅;
              guess_type := λ _, None; log := []; stdout := [] |} in
  (get_folder_id "A/B" w).1 =
    Raise (ValueError
             ("malformed node or string: b" +:+ String "034" EmptyString
              +:+ "{'error': {'message': 'File not found: root'}}"
              +:+ String "034" EmptyString)) ∧
  drive (get_folder_id "A/B" w).2 = [] ∧
  log (get_folder_id "A/B" w).2 =
    [(INFO, "Searching for folder 'B' id"); (INFO, "Searching for folder: A")].
Proof. by vm_compute. Qed.

(** *** Seeding *)

Lemma set_difference_unhashable {A} (eqb : A → GoogleDriveFile → bool)
    (s : list A) (f : GoogleDriveFile) (others : list GoogleDriveFile) :
  set_difference GoogleDriveFile_hashable eqb "GoogleDriveFile" s (f :: others)
  = Raise (TypeError "unhashable type: 'GoogleDriveFile'").
Proof. done. Qed.

(** C2, what the code does: when [overwrite_existing] is false and the
    destination folder already has a child, [cache_upload_files] raises a
    [TypeError] while it takes the difference of the set of local paths with
    the list of remote file objects, which have no hash, and nothing is added
    to the Redis set. *)
Theorem cache_upload_files_unhashable (local_files : list PosixPath)
    (dst_dir key : string) (w w1 : World) (i : string) :
  list_faults w = ∅ →
  get_folder_id dst_dir w = (Ok (Some i), w1) →
  children i (drive w1) ≠ [] →
  ∃ w', cache_upload_files local_files dst_dir false key w
        = (Raise (TypeError "unhashable type: 'GoogleDriveFile'"), w') ∧
        redis w' = redis w.
Proof.
  intros Hf Hrun Hchildren.
  destruct (get_folder_id_ok dst_dir w Hf) as (i' & w1' & Hrun' & Hf1 & Hredis & _).
  rewrite Hrun in Hrun'. injection Hrun' as <- <-.
  unfold cache_upload_files. cbn [negb].
  unfold bind at 1. unfold bind at 1. rewrite Hrun.
  unfold bind at 1. unfold ListFile_GetList. change (fmt_opt (Some i)) with i.
  rewrite (no_faults_lookup _ _ Hf1).
  destruct (children i (drive w1)) as [|f others]; [done|].
  unfold bind at 1. cbn [logger_info]. unfold lift.
  rewrite set_difference_unhashable. eexists. split; [reflexivity|]. exact Hredis.
Qed.

(** C2, at the failing input: local files [x.txt] and [y.txt], a destination
    that holds a file titled [x.txt]. The call raises and the Redis set stays
    empty: [y.txt] is not enqueued. *)
Lemma cache_upload_files_unhashable_witness :
  list_faults seeded_world = ∅ ∧
  (get_folder_id "dst" seeded_world).1 = Ok (Some "d1") ∧
  children "d1" (drive (get_folder_id "dst" seeded_world).2) ≠ [] ∧
  ∃ w', cache_upload_files [Path "/data/x.txt"; Path "/data/y.txt"] "dst" false
          "gdrive_upload" seeded_world
        = (Raise (TypeError "unhashable type: 'GoogleDriveFile'"), w') ∧
        redis w' = redis seeded_world.
Proof.
  split; [reflexivity|]. split; [reflexivity|]. split; [discriminate|].
  apply (cache_upload_files_unhashable _ "dst" "gdrive_upload" seeded_world
           (get_folder_id "dst" seeded_world).2 "d1");
    [reflexivity | reflexivity | discriminate].
Defined.

(** *** Uploads *)

Lemma split_app_sep c a b :
  Str.split c (a +:+ String c b) = Str.split c a ++ Str.split c b.
Proof.
  induction a as [|x a IH].
  - change (Str.split c (String c b) = [EmptyString] ++ Str.split c b).
    by rewrite split_step, Ascii.eqb_refl.
  - change (String x a +:+ String c b) with (String x (a +:+ String c b)).
    rewrite !split_step, IH.
    destruct (Ascii.eqb x c); [done|].
    by destruct (split_cons c a) as (w & ws & ->).
Qed.

Lemma split_without_sep c s :
  Str.contains (String c EmptyString) s = false → Str.split c s = [s].
Proof.
  induction s as [|a s IH]; [done|].
  rewrite contains_sep_cons, split_step. intros [Ha Hs]%orb_false_elim.
  by rewrite Ha, IH.
Qed.

(** The name of a path that ends in a slash followed by a proper component
    is that component. *)
Lemma name_of_joined dir base :
  base ≠ "" → base ≠ "." → Str.contains "/" base = false →
  Pathlib.name (Path (dir +:+ "/" +:+ base)) = base.
Proof.
  intros Hne Hdot Hsep. unfold Pathlib.name, Path. cbn [parts].
  change ("/" +:+ base) with (String "/" base).
  rewrite split_app_sep, (split_without_sep _ _ Hsep), filter_app.
  rewrite (filter_cons_True _ base) by done.
  by rewrite filter_nil, last_snoc.
Qed.

Lemma readable_dec w item : {readable w item} + {¬ readable w item}.
Proof.
  unfold readable. destruct (decide (item = "")) as [->|Hne].
  - right. by intros [? _].
  - destruct (decide (local_files w !! item = Some true)).
    + by left.
    + right. by intros [_ ?].
Qed.

Lemma open_rb_readable item w : readable w item → open_rb item w = (Ok (), w).
Proof.
  intros [Hne Hfile]. unfold open_rb. rewrite Hfile.
  by destruct (String.eqb_spec item "").
Qed.

Lemma open_rb_unreadable item w :
  ¬ readable w item → ∃ e, open_rb item w = (Raise e, w).
Proof.
  intros Hno. unfold open_rb. destruct (String.eqb_spec item "") as [->|Hne].
  - by eexists.
  - destruct (local_files w !! item) as [[|]|] eqn:Hfile.
    + by destruct Hno.
    + by eexists.
    + destruct (local_dirs w !! Pathlib.str (Path item)); by eexists.
Qed.

(** The upload of a file that can be read. *)
Lemma upload_file_adds local_file dst w :
  readable w local_file →
  upload_file local_file (Some dst) w =
    (Ok (), set_drive (drive w ++ [uploaded (guess_type w) (next_id w) local_file dst])
              (S (next_id w)) w).
Proof.
  intros Hread. unfold upload_file, SetContentFile.
  unfold bind at 1. unfold bind at 1. by rewrite open_rb_readable.
Qed.

(** The upload of anything else raises before the drive is called. *)
Lemma upload_file_raises local_file dst_folder_id w :
  ¬ readable w local_file → ∃ e, upload_file local_file dst_folder_id w = (Raise e, w).
Proof.
  intros Hno. destruct (open_rb_unreadable _ _ Hno) as (e & Hopen).
  exists e. unfold upload_file, SetContentFile.
  unfold bind at 1. unfold bind at 1. by rewrite Hopen.
Qed.

Lemma after_upload_spec key count w :
  ∃ w', after_upload key count w = (Ok (), w') ∧
        drive w' = drive w ∧ next_id w' = next_id w ∧ redis w' = redis w ∧
        list_faults w' = list_faults w ∧ local_dirs w' = local_dirs w ∧
        local_files w' = local_files w ∧ guess_type w' = guess_type w.
Proof. unfold after_upload. destruct (count `mod` 50 =? 0)%nat; by eexists. Qed.

(** The step of a worker that holds an item that can be read. *)
Lemma holding_step key choice dst c item w :
  readable w item →
  ∃ w', proc_step key choice (Holding (Some dst) c item) w
        = Some (Upload item, Polling (Some dst) (S c), w') ∧
        drive w' = drive w ++ [uploaded (guess_type w) (next_id w) item dst] ∧
        next_id w' = S (next_id w) ∧ redis w' = redis w ∧
        list_faults w' = list_faults w ∧ local_dirs w' = local_dirs w ∧
        local_files w' = local_files w ∧ guess_type w' = guess_type w.
Proof.
  intros Hread. cbn [proc_step]. unfold bind at 1. cbn [logger_info].
  unfold bind at 1. rewrite upload_file_adds by done.
  match goal with |- context [after_upload key (S c) ?w0] =>
    destruct (after_upload_spec key (S c) w0) as (w' & -> & Hw') end.
  by exists w'.
Qed.

(** The step of a worker that holds anything else. *)
Lemma holding_step_raises key choice dst_dir_id c item w :
  ¬ readable w item →
  ∃ e, proc_step key choice (Holding dst_dir_id c item) w
       = Some (Upload item, Crashed e,
               set_log (log w ++ [(INFO, "Uploading file " +:+ item)]) w).
Proof.
  intros Hno. cbn [proc_step]. unfold bind at 1. cbn [logger_info].
  unfold bind at 1.
  match goal with |- context [upload_file item dst_dir_id ?w0] =>
    destruct (upload_file_raises item dst_dir_id w0) as (e & ->); [done|] end.
  by exists e.
Qed.

(** What an upload leaves as it was. *)
Lemma upload_file_frame local_file dst_folder_id w :
  let w' := (upload_file local_file dst_folder_id w).2 in
  redis w' = redis w ∧ list_faults w' = list_faults w ∧
  local_dirs w' = local_dirs w ∧ local_files w' = local_files w ∧
  guess_type w' = guess_type w ∧ log w' = log w.
Proof.
  destruct (readable_dec w local_file) as [Hread|Hno].
  - destruct dst_folder_id as [dst|].
    + by rewrite upload_file_adds.
    + unfold upload_file, SetContentFile, bind.
      by rewrite open_rb_readable.
  - by destruct (upload_file_raises local_file dst_folder_id w Hno) as (e & ->).
Qed.

(** What the step of a worker that holds an item leaves as it was. *)
Lemma holding_step_frame key choice dst_dir_id c item w a p w' :
  proc_step key choice (Holding dst_dir_id c item) w = Some (a, p, w') →
  a = Upload item ∧ (p = Polling dst_dir_id (S c) ∨ ∃ e, p = Crashed e) ∧
  redis w' = redis w ∧ list_faults w' = list_faults w ∧
  local_dirs w' = local_dirs w ∧ local_files w' = local_files w ∧
  guess_type w' = guess_type w.
Proof.
  cbn [proc_step]. unfold bind at 1. cbn [logger_info]. unfold bind at 1.
  match goal with |- context [upload_file item dst_dir_id ?w0] =>
    pose proof (upload_file_frame item dst_dir_id w0) as Hframe;
    destruct (upload_file item dst_dir_id w0) as [[[]|e] w1] end;
    cbn [snd redis list_faults local_dirs local_files guess_type set_log] in Hframe;
    destruct Hframe as (Hr & Hf & Hd & Hl & Hg & _).
  - destruct (after_upload_spec key (S c) w1) as (w2 & -> & _ & _ & Hr2 & Hf2 & Hd2 & Hl2 & Hg2).
    intros [= <- <- <-]. split; [done|]. split; [by left|]. repeat split; congruence.
  - intros [= <- <- <-]. split; [done|]. split; [by right; exists e|]. done.
Qed.

(** C10. The step in which a worker uploads the item [item] it took from
    the queue either stops the worker with an exception, without a change of
    the drive, when the item is not a local file that can be read, or adds
    one file to the drive, under the destination, whose title is
    [Path(item).name]. And for two items that can be read and are the same
    proper component [base] under two directories, the two uploads leave two
    files with different identifiers and the same title [base] among the
    children of the destination. *)
Theorem upload_titles_are_basenames (key : string) (choice : nat) (dst : string)
    (count : nat) (dir1 dir2 base : string) (w : World) :
  base ≠ "" → base ≠ "." → Str.contains "/" base = false →
  let item1 := dir1 +:+ "/" +:+ base in
  let item2 := dir2 +:+ "/" +:+ base in
  readable w item1 → readable w item2 →
  (∀ item c w0, ∃ p w',
     proc_step key choice (Holding (Some dst) c item) w0 = Some (Upload item, p, w') ∧
     ((¬ readable w0 item ∧ (∃ e, p = Crashed e) ∧ drive w' = drive w0) ∨
      (readable w0 item ∧ p = Polling (Some dst) (S c) ∧
       ∃ f, drive w' = drive w0 ++ [f] ∧ gd_title f = Pathlib.name (Path item) ∧
            gd_parents f = [dst] ∧ gd_trashed f = false))) ∧
  ∃ w1 w2 f1 f2,
    proc_step key choice (Holding (Some dst) count item1) w
    = Some (Upload item1, Polling (Some dst) (S count), w1) ∧
    drive w1 = drive w ++ [f1] ∧ gd_title f1 = Pathlib.name (Path item1) ∧
    proc_step key choice (Holding (Some dst) (S count) item2) w1
    = Some (Upload item2, Polling (Some dst) (S (S count)), w2) ∧
    drive w2 = drive w ++ [f1; f2] ∧ gd_title f2 = Pathlib.name (Path item2) ∧
    gd_title f1 = base ∧ gd_title f2 = base ∧ gd_id f1 ≠ gd_id f2 ∧
    children dst [f1; f2] = [f1; f2].
Proof.
  intros Hne Hdot Hsep item1 item2 Hread1 Hread2. split.
  { intros item c w0. destruct (readable_dec w0 item) as [Hread|Hno].
    - destruct (holding_step key choice dst c item w0 Hread) as (w' & Hs & Hd & _).
      exists (Polling (Some dst) (S c)), w'. split; [done|]. right.
      split; [done|]. split; [done|]. by eexists.
    - destruct (holding_step_raises key choice (Some dst) c item w0 Hno) as (e & Hs).
      eexists _, _. split; [exact Hs|]. left.
      split; [done|]. split; [by exists e|done]. }
  destruct (holding_step key choice dst count item1 w Hread1)
    as (w1 & Hs1 & Hd1 & Hn1 & _ & _ & _ & Hfiles & _).
  assert (readable w1 item2) as Hread2'.
  { destruct Hread2 as [? Hfile]. split; [done|]. by rewrite Hfiles. }
  destruct (holding_step key choice dst (S count) item2 w1 Hread2')
    as (w2 & Hs2 & Hd2 & Hn2 & _).
  exists w1, w2, (uploaded (guess_type w) (next_id w) item1 dst),
    (uploaded (guess_type w1) (next_id w1) item2 dst).
  rewrite Hs1, Hs2, Hd2, Hd1, <- app_assoc. repeat split; try done.
  - by apply name_of_joined.
  - by apply name_of_joined.
  - cbn [gd_id uploaded]. rewrite Hn1. intros Hid%drive_id_inj. lia.
  - unfold children. rewrite !filter_cons_True, filter_nil; try done;
      (split; [apply list_elem_of_singleton|]; done).
Qed.

(** C10, for the items ["/a/report.txt"] and ["/b/report.txt"]. *)
Lemma upload_titles_are_basenames_witness :
  "report.txt" ≠ "" ∧ "report.txt" ≠ "." ∧ Str.contains "/" "report.txt" = false ∧
  readable reports_world "/a/report.txt" ∧ readable reports_world "/b/report.txt" ∧
  ∃ w1 w2 f1 f2,
    proc_step "gdrive_upload" 0 (Holding (Some "d1") 0 "/a/report.txt") reports_world
    = Some (Upload "/a/report.txt", Polling (Some "d1") 1, w1) ∧
    drive w1 = drive reports_world ++ [f1] ∧
    gd_title f1 = Pathlib.name (Path "/a/report.txt") ∧
    proc_step "gdrive_upload" 0 (Holding (Some "d1") 1 "/b/report.txt") w1
    = Some (Upload "/b/report.txt", Polling (Some "d1") 2, w2) ∧
    drive w2 = drive reports_world ++ [f1; f2] ∧
    gd_title f2 = Pathlib.name (Path "/b/report.txt") ∧
    gd_title f1 = "report.txt" ∧ gd_title f2 = "report.txt" ∧ gd_id f1 ≠ gd_id f2 ∧
    children "d1" [f1; f2] = [f1; f2].
Proof.
  assert (readable reports_world "/a/report.txt") as H1 by (split; [discriminate|reflexivity]).
  assert (readable reports_world "/b/report.txt") as H2 by (split; [discriminate|reflexivity]).
  split; [discriminate|]. split; [discriminate|]. split; [reflexivity|].
  split; [exact H1|]. split; [exact H2|].
  apply (upload_titles_are_basenames "gdrive_upload" 0 "d1" 0 "/a" "/b" "report.txt"
           reports_world); [discriminate | discriminate | reflexivity | exact H1 | exact H2].
Defined.

(** *** Local files *)

Section LocalFilesFacts.
Context {regex : Type}.
Variable re_compile : string → option regex.
Variable regex_search : regex → string → bool.
Variable glob_select :
  gmap string (list string) → PosixPath → string → result (list PosixPath).

Lemma re_search_path re_pattern p w :
  re_search re_compile regex_search re_pattern (PyPath p) w
  = (Raise (regex_failure re_compile re_pattern), w).
Proof. unfold re_search, regex_failure. by destruct (re_compile re_pattern). Qed.

Lemma for_in_single {A B} (body : A → Py (list B)) (a : A) (w : World) :
  for_in [a] body w =
    match body a w with
    | (Ok bs, w') => (Ok (bs ++ []), w')
    | (Raise e, w') => (Raise e, w')
    end.
Proof. cbn [for_in]. unfold bind, ret. by destruct (body a w) as [[bs|e] w']. Qed.

(** The regular-expression clause of the comprehension over one
    directory that has an entry. *)
Lemma regex_clause_raises dir entry entries re_pattern w :
  local_dirs w !! Pathlib.str (Path dir) = Some (entry :: entries) →
  for_in [dir] (λ d,
    let* found := iterdir (Path d) in
    filter_if (λ f, re_search re_compile regex_search re_pattern (PyPath f)) found) w
  = (Raise (regex_failure re_compile re_pattern), w).
Proof.
  intros Hdir. rewrite for_in_single. unfold bind at 1.
  unfold iterdir. rewrite Hdir. cbn [fmap list_fmap filter_if].
  unfold bind at 1. by rewrite re_search_path.
Qed.

Lemma glob_world p g w : (glob glob_select p g w).2 = w.
Proof.
  unfold glob. destruct (String.eqb g ""); [done|].
  by destruct (Str.starts_with "/" g).
Qed.

Lemma get_local_files_regex dirs dir entry entries glob_pattern re_pattern w :
  dirs = OneDir dir ∨ dirs = DirList [dir] →
  local_dirs w !! Pathlib.str (Path dir) = Some (entry :: entries) →
  (get_local_files re_compile regex_search glob_select dirs glob_pattern
     (Some re_pattern) w).1 =
    match glob_pattern with
    | None => Raise (regex_failure re_compile re_pattern)
    | Some g =>
        match (glob glob_select (Path dir) g w).1 with
        | Ok _ => Raise (regex_failure re_compile re_pattern)
        | Raise e => Raise e
        end
    end.
Proof.
  intros Hdirs Hdir. unfold get_local_files.
  assert (match dirs with DirList ds => ds | OneDir d => [d] end = [dir]) as ->
    by (by destruct Hdirs as [-> | ->]).
  pose proof (regex_clause_raises dir entry entries re_pattern w Hdir) as Hre.
  destruct glob_pattern as [g|].
  - unfold bind at 1. cbn [ret]. unfold bind at 1. unfold bind at 1.
    rewrite for_in_single.
    pose proof (glob_world (Path dir) g w) as Hw.
    destruct (glob glob_select (Path dir) g w) as [[found|e] w0]; cbn in Hw; subst w0;
      [|done].
    cbn [ret fst]. unfold bind at 1. unfold bind at 1. by rewrite Hre.
  - unfold bind at 1. cbn [ret]. unfold bind at 1. cbn [ret].
    unfold bind at 1. unfold bind at 1. by rewrite Hre.
Qed.

End LocalFilesFacts.

(** C9 (as amended). For every regular-expression pattern that is given and
    every directory with at least one entry, [get_local_files] does not
    return: it raises. When the pattern is one that [re] compiles and the
    glob pattern is absent or one whose glob succeeds, the exception is the
    [TypeError] of [re.search] applied to a path object; a pattern that [re]
    rejects raises the error of [re] instead, and a glob that raises ends the
    call before the regular expression is reached. *)
Theorem get_local_files_regex_raises {regex : Type}
    (re_compile : string → option regex) (regex_search : regex → string → bool)
    (glob_select : gmap string (list string) → PosixPath → string → result (list PosixPath))
    (dirs : dirs_arg) (dir entry : string) (entries : list string)
    (glob_pattern : option string) (re_pattern : string) (w : World) :
  dirs = OneDir dir ∨ dirs = DirList [dir] →
  local_dirs w !! Pathlib.str (Path dir) = Some (entry :: entries) →
  let outcome := (get_local_files re_compile regex_search glob_select dirs glob_pattern
                    (Some re_pattern) w).1 in
  let glob_succeeds :=
    ∀ g, glob_pattern = Some g → ∃ found, (glob glob_select (Path dir) g w).1 = Ok found in
  (∀ files, outcome ≠ Ok files) ∧
  (is_Some (re_compile re_pattern) → glob_succeeds →
   outcome = Raise (TypeError "expected string or bytes-like object, got 'PosixPath'")) ∧
  (re_compile re_pattern = None → glob_succeeds → outcome = Raise (re_error re_pattern)) ∧
  (∀ g e, glob_pattern = Some g → (glob glob_select (Path dir) g w).1 = Raise e →
          outcome = Raise e).
Proof.
  intros Hdirs Hdir outcome glob_succeeds. subst outcome.
  rewrite (get_local_files_regex _ _ _ _ _ _ _ _ _ _ Hdirs Hdir).
  repeat split.
  - intros files. destruct glob_pattern as [g|]; [|done].
    by destruct (glob glob_select (Path dir) g w).1.
  - intros [r Hr] Hglob. unfold regex_failure. rewrite Hr.
    destruct glob_pattern as [g|]; [|done].
    by destruct (Hglob g eq_refl) as [found ->].
  - intros Hr Hglob. unfold regex_failure. rewrite Hr.
    destruct glob_pattern as [g|]; [|done].
    by destruct (Hglob g eq_refl) as [found ->].
  - intros g e -> Hg. by rewrite Hg.
Qed.

(** C9, for the directory ["/data"], the pattern ["a"] and no glob pattern:
    the call raises the [TypeError]. *)
Lemma get_local_files_regex_raises_witness :
  (OneDir "/data" = OneDir "/data" ∨ OneDir "/data" = DirList ["/data"]) ∧
  local_dirs data_world !! Pathlib.str (Path "/data") = Some ["a.txt"] ∧
  (get_local_files any_pattern any_match no_glob (OneDir "/data") None (Some "a")
     data_world).1
  = Raise (TypeError "expected string or bytes-like object, got 'PosixPath'").
Proof.
  split; [by left|]. split; [reflexivity|].
  refine (proj1 (proj2 (get_local_files_regex_raises any_pattern any_match no_glob
            (OneDir "/data") "/data" "a.txt" [] None "a" data_world
            (or_introl eq_refl) eq_refl)) _ _).
  - by exists ().
  - intros g Hg. discriminate Hg.
Defined.

(** C9, counterexample: with a regular-expression pattern and a directory
    that has an entry, an empty glob pattern makes [get_local_files] raise
    the [ValueError] of [Path.glob], not a [TypeError]. *)
Lemma get_local_files_raises_ValueError :
  local_dirs data_world !! Pathlib.str (Path "/data") = Some ["a.txt"] ∧
  (get_local_files any_pattern any_match no_glob (OneDir "/data") (Some "") (Some "a")
     data_world).1
  = Raise (ValueError "Unacceptable pattern: ''") ∧
  ∀ msg, (get_local_files any_pattern any_match no_glob (OneDir "/data") (Some "")
            (Some "a") data_world).1 ≠ Raise (TypeError msg).
Proof. split; [reflexivity|]. split; [reflexivity|]. intros msg. discriminate. Qed.

(** *** The queue *)

(** Resolving a destination never touches Redis, whether or not a listing
    fails. *)
Lemma search_file_tree_redis dst segs parent w :
  redis (search_file_tree dst segs parent w).2 = redis w.
Proof.
  revert parent w. induction segs as [|s rest IH]; intros parent w; [done|].
  cbn [search_file_tree]. unfold bind at 1. cbn [logger_info].
  unfold bind at 1. unfold try_list, ListFile_GetList. cbn [list_faults set_log].
  destruct (list_faults w !! parent) as [content|].
  - done.
  - destruct (find _ _) as [file|].
    + unfold bind at 1. cbn [logger_info].
      destruct (String.eqb s dst); [done|]. by rewrite IH.
    + unfold create_gdrive_folder, bind at 1. unfold bind at 1. unfold CreateFile_Upload.
      unfold bind at 1. cbn [logger_info ret].
      destruct (String.eqb s dst); [done|]. by rewrite IH.
Qed.

Lemma get_folder_id_redis folder_path w :
  redis (get_folder_id folder_path w).2 = redis w.
Proof.
  unfold get_folder_id. destruct (last _); [|done].
  unfold bind. cbn [logger_info].
  match goal with |- context [search_file_tree ?d ?l ?p ?w1] =>
    pose proof (search_file_tree_redis d l p w1) as H;
    destruct (search_file_tree d l p w1) as [[r|e] w'] end; exact H.
Qed.

Lemma readable_congr w w' item :
  local_files w' = local_files w → readable w item → readable w' item.
Proof. intros Hfiles [Hne Hfile]. split; [done|]. by rewrite Hfiles. Qed.

(** A resolution leaves the local file system as it was. *)
Lemma search_file_tree_local dst segs parent w :
  let w' := (search_file_tree dst segs parent w).2 in
  local_dirs w' = local_dirs w ∧ local_files w' = local_files w ∧
  guess_type w' = guess_type w.
Proof.
  revert parent w. induction segs as [|s rest IH]; intros parent w; [done|].
  cbn zeta in *.
  destruct (search_file_tree dst (s :: rest) parent w) as [r w'] eqn:Hrun.
  cbn [snd]. revert Hrun. cbn [search_file_tree]. unfold bind at 1. cbn [logger_info].
  unfold bind at 1. unfold try_list, ListFile_GetList. cbn [list_faults set_log].
  destruct (list_faults w !! parent) as [content|]; [by intros [= <- <-]|].
  destruct (find _ _) as [file|].
  - unfold bind at 1. cbn [logger_info].
    destruct (String.eqb s dst); [by intros [= <- <-]|].
    intros Hrec.
    match type of Hrec with search_file_tree dst rest ?p ?w0 = _ =>
      pose proof (IH p w0) as H; rewrite Hrec in H end. exact H.
  - unfold create_gdrive_folder, bind at 1. unfold bind at 1. unfold CreateFile_Upload.
    unfold bind at 1. cbn [logger_info ret].
    destruct (String.eqb s dst); [by intros [= <- <-]|].
    intros Hrec.
    match type of Hrec with search_file_tree dst rest ?p ?w0 = _ =>
      pose proof (IH p w0) as H; rewrite Hrec in H end. exact H.
Qed.

Lemma get_folder_id_local folder_path w :
  let w' := (get_folder_id folder_path w).2 in
  local_dirs w' = local_dirs w ∧ local_files w' = local_files w ∧
  guess_type w' = guess_type w.
Proof.
  cbn zeta. unfold get_folder_id. destruct (last _); [|done].
  unfold bind. cbn [logger_info].
  match goal with |- context [search_file_tree ?d ?l ?p ?w1] =>
    pose proof (search_file_tree_local d l p w1) as H;
    destruct (search_file_tree d l p w1) as [[r|e] w'] end; exact H.
Qed.

Lemma smembers_store_set key s w :
  smembers key (set_redis (store_set key s (redis w)) w) = s.
Proof.
  unfold smembers, store_set. cbn [redis set_redis].
  destruct (decide (s = ∅)) as [->|_].
  - by rewrite lookup_delete_eq.
  - by rewrite lookup_insert_eq.
Qed.

(** [spop] returns a member and removes it, or returns [None] on an empty
    set and changes nothing. *)
Lemma spop_spec choice key w :
  match spop choice key w with
  | (Ok (Some member), w') =>
      member ∈ smembers key w ∧ smembers key w' = smembers key w ∖ {[member]}
  | (Ok None, w') => smembers key w = ∅ ∧ w' = w
  | (Raise _, _) => False
  end.
Proof.
  unfold spop.
  destruct (elements (smembers key w) !! _) as [member|] eqn:Hlook.
  - split; [|apply smembers_store_set].
    apply elem_of_elements. by eapply list_elem_of_lookup_2.
  - split; [|done]. apply lookup_ge_None in Hlook.
    destruct (elements (smembers key w)) as [|x l] eqn:Hel.
    + by apply elements_empty_inv, leibniz_equiv in Hel.
    + pose proof (Nat.mod_upper_bound choice (List.length (x :: l))) as Hlt.
      cbn [List.length] in *. lia.
Qed.

(** What one step of the system does to the set at [key]. *)
Lemma step_queue key σ i a σ' :
  step key σ (i, a) σ' →
  match a with
  | Take (Some item) =>
      item ∈ smembers key (world σ) ∧
      smembers key (world σ') = smembers key (world σ) ∖ {[item]}
  | Take None =>
      smembers key (world σ) = ∅ ∧ smembers key (world σ') = ∅
  | _ => smembers key (world σ') = smembers key (world σ)
  end.
Proof.
  inversion 1 as [? ? choice p ? p' w' Hp Hstep]; subst. cbn [world].
  destruct p as [dst_dir|dst_dir_id count|dst_dir_id count local_file| |e];
    cbn [proc_step] in Hstep; [| | |done|done].
  - pose proof (get_folder_id_redis dst_dir (world σ)) as Hr.
    destruct (get_folder_id dst_dir (world σ)) as [[r|e] w1];
      injection Hstep as <- <- <-; unfold smembers; cbn in *; by rewrite Hr.
  - pose proof (spop_spec choice key (world σ)) as Hs.
    destruct (spop choice key (world σ)) as [[[item|]|e] w1]; [| |done];
      injection Hstep as <- <- <-; [done|].
    destruct Hs as [He ->]. by rewrite <- He at 2.
  - apply (holding_step_frame key choice) in Hstep as (-> & _ & Hr & _).
    unfold smembers. by rewrite Hr.
Qed.

Lemma takes_cons i a es :
  takes ((i, a) :: es) = match a with Take r => r :: takes es | _ => takes es end.
Proof. unfold takes. cbn [omap list_omap snd]. by destruct a. Qed.

Lemma deliveries_cons i a es :
  deliveries ((i, a) :: es) =
    match a with Take (Some item) => (i, item) :: deliveries es | _ => deliveries es end.
Proof. unfold deliveries. cbn [omap list_omap snd fst]. by destruct a as [|[item|]|]. Qed.

(** The invariant of a run over the set [items] that the queue holds at its
    start. *)
Lemma run_queue key σ es σ' :
  run key σ es σ' →
  let items := smembers key (world σ) in
  NoDup (delivered es) ∧
  (∀ item, item ∈ delivered es → item ∈ items) ∧
  smembers key (world σ') = items ∖ list_to_set (delivered es) ∧
  (∀ k r, takes es !! k = Some r →
          if decide (k < size items) then ∃ item, r = Some item ∧ item ∈ items
          else r = None) ∧
  (size items ≤ List.length (takes es) → smembers key (world σ') = ∅).
Proof.
  induction 1 as [σ|σ [i a] σ' es σ'' Hstep Hrun IH]; cbn zeta.
  - repeat split.
    + constructor.
    + by intros item ?%elem_of_nil.
    + cbn. set_solver.
    + by intros k r ?.
    + cbn. intros Hsize. apply leibniz_equiv, size_empty_inv.
      by apply Nat.le_0_r.
  - cbn zeta in IH. destruct IH as (Hnd & Hin & Hfinal & Hshape & Hdrained).
    apply step_queue in Hstep. unfold delivered in *.
    rewrite takes_cons, deliveries_cons.
    destruct a as [|[item|]|]; try (rewrite Hstep in *; done).
    + destruct Hstep as [Hitem Hq]. rewrite Hq in *. cbn [fmap list_fmap snd].
      assert (Hsize : size (smembers key (world σ)) =
                      S (size (smembers key (world σ) ∖ {[item]}))).
      { rewrite (union_difference_singleton_L item (smembers key (world σ))) at 1
          by done.
        rewrite size_union, size_singleton; [done|set_solver]. }
      repeat split.
      * apply NoDup_cons. split; [|done]. intros Hi%Hin. set_solver.
      * intros x [->|Hx%Hin]%elem_of_cons; [done|set_solver].
      * rewrite Hfinal. cbn [list_to_set foldr]. set_solver.
      * intros [|k] r Hk.
        -- injection Hk as <-. rewrite decide_True by lia. eauto.
        -- cbn in Hk. specialize (Hshape k r Hk). rewrite Hsize.
           destruct (decide (k < _)) as [Hlt|Hge].
           ++ rewrite decide_True by lia. destruct Hshape as (x & -> & Hx).
              exists x. split; [done|set_solver].
           ++ by rewrite decide_False by lia.
      * cbn [List.length]. intros Hle. apply Hdrained. lia.
    + destruct Hstep as [Hempty Hq]. rewrite Hq, Hempty in *. rewrite size_empty in *.
      repeat split; try done.
      * intros [|k] r Hk; [by injection Hk as <-|].
        cbn in Hk. rewrite decide_False by lia. apply (Hshape k r Hk).
      * intros _. rewrite Hfinal. set_solver.
Qed.

Lemma exec_run key schedule σ :
  run key σ (exec key schedule σ).1 (exec key schedule σ).2.
Proof.
  revert σ. induction schedule as [|[i choice] schedule IH]; intros σ; [constructor|].
  cbn [exec]. destruct (system_step key i choice σ) as [[a σ']|] eqn:Hstep; [|apply IH].
  specialize (IH σ'). destruct (exec key schedule σ') as [es σ''].
  eapply run_step; [|exact IH].
  unfold system_step in Hstep.
  destruct (procs σ !! i) as [p|] eqn:Hp; [|done].
  destruct (proc_step key choice p (world σ)) as [[[a' p'] w']|] eqn:Hps; [|done].
  injection Hstep as <- <-. by econstructor.
Qed.

Lemma NoDup_snd_unique {A B} (l : list (A * B)) a a' b :
  NoDup l.*2 → (a, b) ∈ l → (a', b) ∈ l → a = a'.
Proof.
  induction l as [|[x y] l IH]; [by intros _ ?%elem_of_nil|].
  cbn [fmap list_fmap snd]. intros [Hy Hl]%NoDup_cons H1 H2.
  apply elem_of_cons in H1 as [H1|H1]; apply elem_of_cons in H2 as [H2|H2].
  - congruence.
  - injection H1 as -> ->. destruct Hy. apply list_elem_of_fmap. by exists (a', y).
  - injection H2 as -> ->. destruct Hy. apply list_elem_of_fmap. by exists (a, y).
  - by apply IH.
Qed.

(** C7. Take any number of workers in [upload_files] over one Redis set,
    any interleaving of their steps and any choices of the server, and let
    [N] be the number of items in the set when the run starts. No item is
    returned by two calls of [spop], so no two workers receive the same
    item; the first [N] calls each return an item of the set and every later
    call, the [N+1]-th included, returns [None]; and once [N] calls have been
    made every item of the set has been returned to exactly one worker and
    the set is empty. *)
Theorem spop_delivers_each_item_once (key : string) (σ σ' : system)
    (es : list (nat * action)) :
  run key σ es σ' →
  let items := smembers key (world σ) in
  let N := size items in
  NoDup (delivered es) ∧
  (∀ k r, takes es !! k = Some r →
          if decide (k < N) then ∃ item, r = Some item ∧ item ∈ items else r = None) ∧
  (N < List.length (takes es) → takes es !! N = Some None) ∧
  (N ≤ List.length (takes es) →
   smembers key (world σ') = ∅ ∧
   ∀ item, item ∈ items →
     ∃ i, (i, item) ∈ deliveries es ∧ ∀ j, (j, item) ∈ deliveries es → j = i).
Proof.
  intros Hrun items N.
  destruct (run_queue key σ es σ' Hrun) as (Hnd & Hin & Hfinal & Hshape & Hdrained).
  fold items in Hin, Hfinal, Hshape, Hdrained. fold N in Hshape, Hdrained.
  split; [done|]. split; [done|]. split.
  - intros Hlt. destruct (lookup_lt_is_Some_2 (takes es) N Hlt) as [r Hr].
    specialize (Hshape N r Hr). rewrite decide_False in Hshape by lia. by rewrite Hr, Hshape.
  - intros Hle. specialize (Hdrained Hle). split; [done|].
    intros item Hitem.
    assert (Hd : item ∈ delivered es).
    { rewrite Hdrained in Hfinal.
      destruct (decide (item ∈ delivered es)) as [|Hnot]; [done|].
      assert (item ∈ items ∖ list_to_set (C := gset string) (delivered es))
        by (apply elem_of_difference; split; [done|by rewrite elem_of_list_to_set]).
      rewrite <- Hfinal in *. set_solver. }
    unfold delivered in Hd. apply list_elem_of_fmap in Hd as ([i item'] & -> & Hd).
    exists i. split; [done|]. intros j Hj. by eapply NoDup_snd_unique.
Qed.

(** C7, for a set of two items and two workers: the first worker takes, the
    second takes, the first uploads and takes again. *)
Lemma spop_delivers_each_item_once_witness :
  let key := "gdrive_upload" in
  let schedule := [(0, 0); (1, 0); (0, 0); (0, 0)] in
  let es := (exec key schedule two_workers).1 in
  let σ' := (exec key schedule two_workers).2 in
  let items := smembers key (world two_workers) in
  let N := size items in
  run key two_workers es σ' ∧
  NoDup (delivered es) ∧
  (∀ k r, takes es !! k = Some r →
          if decide (k < N) then ∃ item, r = Some item ∧ item ∈ items else r = None) ∧
  (N < List.length (takes es) → takes es !! N = Some None) ∧
  (N ≤ List.length (takes es) →
   smembers key (world σ') = ∅ ∧
   ∀ item, item ∈ items →
     ∃ i, (i, item) ∈ deliveries es ∧ ∀ j, (j, item) ∈ deliveries es → j = i).
Proof.
  intros key schedule es σ' items N.
  split; [apply exec_run|].
  exact (spop_delivers_each_item_once key two_workers σ' es (exec_run key schedule two_workers)).
Defined.

(** The run of that schedule: each item goes to one worker and the third
    call of [spop] finds the set empty. *)
Lemma two_workers_run :
  let es := (exec "gdrive_upload" [(0, 0); (1, 0); (0, 0); (0, 0)] two_workers).1 in
  size (smembers "gdrive_upload" (world two_workers)) = 2 ∧
  es = [(0, Take (Some "/data/a.txt")); (1, Take (Some "/data/b.txt"));
        (0, Upload "/data/a.txt"); (0, Take None)] ∧
  takes es = [Some "/data/a.txt"; Some "/data/b.txt"; None].
Proof. by vm_compute. Qed.

(** * Further properties *)

(** *** What a resolution does to the world, whatever the listings do *)

Lemma search_file_tree_fault dst s rest parent w content :
  list_faults w !! parent = Some content →
  search_file_tree dst (s :: rest) parent w =
    (Raise (ValueError ("malformed node or string: " +:+ bytes_repr content)),
     set_log (log w ++ [(INFO, "Searching for folder: " +:+ s)]) w).
Proof.
  intros Hfault. cbn [search_file_tree].
  unfold bind at 1. cbn [logger_info].
  unfold bind at 1. unfold try_list, ListFile_GetList. cbn [list_faults set_log].
  by rewrite Hfault.
Qed.

Lemma find_child_elem s parent fs file :
  find (by_title s) (children parent fs) = Some file →
  file ∈ fs ∧ gd_title file = s ∧ gd_trashed file = false ∧ parent ∈ gd_parents file.
Proof.
  intros [Hin Ht]%find_some. apply list_elem_of_In in Hin.
  unfold children in Hin. apply list_elem_of_filter in Hin as [[Hp Htr] Hin].
  repeat split; try done. by apply String.eqb_eq.
Qed.

Lemma folder_for_new n s parent segs : s ∈ segs → folder_for segs (new_folder n s parent).
Proof. intros Hs. repeat split; try done. by exists parent. Qed.

Lemma folder_for_cons s segs f : folder_for segs f → folder_for (s :: segs) f.
Proof. intros (? & ? & ? & ?). repeat split; try done. by apply elem_of_cons; right. Qed.

(** The invariants of [search_file_tree]. *)
Lemma search_file_tree_inv dst segs parent w :
  ∃ r w' ext,
    search_file_tree dst segs parent w = (r, w') ∧
    drive w' = drive w ++ ext ∧ next_id w' = next_id w + List.length ext ∧
    list_faults w' = list_faults w ∧ redis w' = redis w ∧
    local_dirs w' = local_dirs w ∧ stdout w' = stdout w ∧
    Forall (folder_for segs) ext ∧ List.length ext ≤ List.length segs ∧
    (r = Ok None → dst ∉ segs) ∧
    (∀ i, r = Ok (Some i) →
          ∃ f, f ∈ drive w' ∧ gd_id f = i ∧ gd_title f = dst ∧ gd_trashed f = false).
Proof.
  revert parent w. induction segs as [|s rest IH]; intros parent w.
  - exists (Ok None), w, []. cbn. rewrite app_nil_r, Nat.add_0_r.
    repeat split; try done. by intros _ ?%elem_of_nil.
  - destruct (list_faults w !! parent) as [content|] eqn:Hfault.
    + rewrite (search_file_tree_fault _ _ _ _ _ _ Hfault).
      eexists _, _, []. cbn. rewrite app_nil_r, Nat.add_0_r.
      repeat split; try done. lia.
    + rewrite search_file_tree_cons by done. cbn zeta.
      destruct (find (by_title s) (children parent (drive w))) as [file|] eqn:Hfind.
      * apply find_child_elem in Hfind as (Hin & Htitle & Htrashed & _).
        destruct (String.eqb_spec s dst) as [->|Hne].
        -- eexists _, _, []. cbn. rewrite app_nil_r, Nat.add_0_r.
           repeat split; try done; [lia|].
           intros i [= <-]. by exists file.
        -- match goal with |- context [search_file_tree _ _ ?p ?w1] =>
             destruct (IH p w1)
               as (r & w' & ext & -> & Hd & Hn & Hf & Hr & Hl & Hs & Hall & Hlen & Hnone & Hsome)
           end.
           exists r, w', ext. cbn in Hd, Hn, Hf, Hr, Hl, Hs.
           repeat split; try done.
           ++ eapply Forall_impl; [exact Hall|]. intros f. apply folder_for_cons.
           ++ cbn. lia.
           ++ intros Hr0 [?|?]%elem_of_cons; [congruence|by apply Hnone].
      * destruct (String.eqb_spec s dst) as [->|Hne].
        -- eexists _, _, [new_folder (next_id w) dst parent].
           repeat split; cbn; try done; try lia.
           ++ constructor; [|constructor]. apply folder_for_new, elem_of_cons. by left.
           ++ intros i [= <-]. exists (new_folder (next_id w) dst parent).
              repeat split; try done. apply elem_of_app. right. by apply list_elem_of_singleton.
        -- match goal with |- context [search_file_tree _ _ ?p ?w1] =>
             destruct (IH p w1)
               as (r & w' & ext & -> & Hd & Hn & Hf & Hr & Hl & Hs & Hall & Hlen & Hnone & Hsome)
           end.
           exists r, w', (new_folder (next_id w) s parent :: ext).
           cbn in Hd, Hn, Hf, Hr, Hl, Hs.
           repeat split; try done.
           ++ by rewrite Hd, <- app_assoc.
           ++ cbn. lia.
           ++ constructor.
              ** apply folder_for_new, elem_of_cons. by left.
              ** eapply Forall_impl; [exact Hall|]. intros f. apply folder_for_cons.
           ++ cbn. lia.
           ++ intros Hr0 [?|?]%elem_of_cons; [congruence|by apply Hnone].
Qed.

Lemma get_folder_id_inv folder_path w :
  ∃ dst r w' ext,
    last (destination_path folder_path) = Some dst ∧
    get_folder_id folder_path w = (r, w') ∧
    drive w' = drive w ++ ext ∧ next_id w' = next_id w + List.length ext ∧
    list_faults w' = list_faults w ∧ redis w' = redis w ∧
    local_dirs w' = local_dirs w ∧ stdout w' = stdout w ∧
    Forall (folder_for (destination_path folder_path)) ext ∧
    List.length ext ≤ List.length (destination_path folder_path) ∧
    r ≠ Ok None ∧
    (∀ i, r = Ok (Some i) →
          ∃ f, f ∈ drive w' ∧ gd_id f = i ∧ gd_title f = dst ∧ gd_trashed f = false).
Proof.
  unfold get_folder_id.
  destruct (last (destination_path folder_path)) as [dst|] eqn:Hlast;
    [|apply last_None in Hlast; by apply split_not_nil in Hlast].
  unfold bind at 1. cbn [logger_info].
  match goal with |- context [search_file_tree ?d ?l ?p ?w1] =>
    destruct (search_file_tree_inv d l p w1)
      as (r & w' & ext & -> & Hd & Hn & Hf & Hr & Hl & Hs & Hall & Hlen & Hnone & Hsome)
  end.
  exists dst, r, w', ext. repeat split; try done.
  intros ->. by apply Hnone, last_elem_of.
Qed.

(** X1. Whatever the drive holds and whether or not listings fail,
    [get_folder_id] never returns [None]: the end of [search_file_tree]
    without a [return] is not reached. *)
Theorem get_folder_id_never_None (folder_path : string) (w : World) :
  (get_folder_id folder_path w).1 ≠ Ok None.
Proof.
  destruct (get_folder_id_inv folder_path w) as (dst & r & w' & ext & _ & -> & H).
  cbn. by destruct H as (_ & _ & _ & _ & _ & _ & _ & _ & Hnone & _).
Qed.


(** X3. Whenever [get_folder_id] returns an identifier, it is the
    identifier of a file that is on the drive after the call, is not
    trashed, and is titled with the final segment of the path. *)
Theorem get_folder_id_returns_destination_name (folder_path : string) (w : World)
    (i : string) :
  (get_folder_id folder_path w).1 = Ok (Some i) →
  ∃ f dst, last (destination_path folder_path) = Some dst ∧
           f ∈ drive (get_folder_id folder_path w).2 ∧
           gd_id f = i ∧ gd_title f = dst ∧ gd_trashed f = false.
Proof.
  destruct (get_folder_id_inv folder_path w) as (dst & r & w' & ext & Hlast & -> & H).
  cbn. intros ->. destruct H as (_ & _ & _ & _ & _ & _ & _ & _ & _ & Hsome).
  destruct (Hsome i eq_refl) as (f & ?). exists f, dst. naive_solver.
Qed.

(** X3, for the path ["A/B"] on the drive with the text file ["A"]. *)
Lemma get_folder_id_returns_destination_name_witness :
  (get_folder_id "A/B" world_with_text_file).1 = Ok (Some "id0") ∧
  ∃ f dst, last (destination_path "A/B") = Some dst ∧
           f ∈ drive (get_folder_id "A/B" world_with_text_file).2 ∧
           gd_id f = "id0" ∧ gd_title f = dst ∧ gd_trashed f = false.
Proof.
  split; [reflexivity|].
  exact (get_folder_id_returns_destination_name "A/B" world_with_text_file "id0" eq_refl).
Defined.

(** *** Trashed files *)

Lemma children_purge parent fs :
  children parent (filter (λ f, gd_trashed f = false) fs) = children parent fs.
Proof.
  unfold children. induction fs as [|f fs IH]; [done|].
  rewrite !filter_cons. destruct (decide (gd_trashed f = false)) as [Ht|Ht].
  - rewrite filter_cons. by rewrite IH.
  - rewrite IH. rewrite decide_False; [done|]. by intros [_ ?].
Qed.

Lemma purge_info msg w : purge (info msg w) = info msg (purge w).
Proof. done. Qed.

Lemma purge_created w w0 n s parent k :
  purge (set_drive (drive w ++ [new_folder n s parent]) k w0)
  = set_drive (drive (purge w) ++ [new_folder n s parent]) k (purge w0).
Proof.
  unfold purge, set_drive. cbn. f_equal.
  rewrite filter_app. f_equal.
Qed.

Lemma search_file_tree_purge dst segs parent w :
  search_file_tree dst segs parent (purge w)
  = ((search_file_tree dst segs parent w).1, purge (search_file_tree dst segs parent w).2).
Proof.
  revert parent w. induction segs as [|s rest IH]; intros parent w; [done|].
  destruct (list_faults w !! parent) as [content|] eqn:Hfault.
  - by rewrite !(search_file_tree_fault _ _ _ _ _ content) by done.
  - rewrite (search_file_tree_cons dst s rest parent w) by done.
    rewrite (search_file_tree_cons dst s rest parent (purge w)) by done.
    cbn zeta.
    change (drive (purge w)) with (filter (λ f, gd_trashed f = false) (drive w)) at 1.
    rewrite children_purge.
    destruct (find (by_title s) (children parent (drive w))) as [file|].
    + destruct (String.eqb s dst); [done|]. apply (IH (gd_id file) (info _ (info _ w))).
    + change (next_id (purge w)) with (next_id w).
      destruct (String.eqb s dst).
      * cbn [fst snd]. by rewrite !purge_info, purge_created.
      * rewrite <- IH. by rewrite !purge_info, purge_created.
Qed.

(** X4. Trashed files never influence a resolution: on the drive without
    its trashed files [get_folder_id] has the same outcome, logs the same
    and creates the same folders as on the drive with them. *)
Theorem get_folder_id_ignores_trashed (folder_path : string) (w : World) :
  get_folder_id folder_path (purge w)
  = ((get_folder_id folder_path w).1, purge (get_folder_id folder_path w).2).
Proof.
  unfold get_folder_id. destruct (last (destination_path folder_path)); [|done].
  unfold bind. cbn [logger_info].
  match goal with |- context [search_file_tree ?d ?l ?p (set_log ?lg w)] =>
    pose proof (search_file_tree_purge d l p (set_log lg w)) as H;
    change (set_log (log (purge w) ++ [(INFO, "Searching for folder '" +:+ d +:+ "' id")])
              (purge w))
      with (purge (set_log lg w));
    rewrite H; by destruct (search_file_tree d l p (set_log lg w)) as [[r|e] w1]
  end.
Qed.

(** *** Slashes around the destination *)

Lemma rstrip_snoc c s : Str.rstrip c (s +:+ String c EmptyString) = Str.rstrip c s.
Proof.
  induction s as [|a s IH].
  - change (Str.rstrip c (String c EmptyString) = EmptyString).
    rewrite rstrip_cons. cbn. by rewrite Ascii.eqb_refl.
  - change (String a s +:+ String c EmptyString)
      with (String a (s +:+ String c EmptyString)).
    by rewrite !rstrip_cons, IH.
Qed.

Lemma strip_snoc c s : Str.strip c (s +:+ String c EmptyString) = Str.strip c s.
Proof.
  unfold Str.strip. induction s as [|a s IH].
  - change (Str.rstrip c (Str.lstrip c (String c EmptyString)) = EmptyString).
    cbn. by rewrite Ascii.eqb_refl.
  - change (String a s +:+ String c EmptyString)
      with (String a (s +:+ String c EmptyString)).
    cbn [Str.lstrip]. destruct (Ascii.eqb a c); [exact IH|].
    apply (rstrip_snoc c (String a s)).
Qed.

Lemma strip_cons c s : Str.strip c (String c s) = Str.strip c s.
Proof. unfold Str.strip. cbn [Str.lstrip]. by rewrite Ascii.eqb_refl. Qed.

(** X5. A slash in front of the destination string or behind it changes
    nothing: [get_folder_id] parses the same segments and so is the same
    computation. *)
Theorem get_folder_id_ignores_outer_slashes (folder_path : string) :
  destination_path ("/" +:+ folder_path) = destination_path folder_path ∧
  destination_path (folder_path +:+ "/") = destination_path folder_path ∧
  get_folder_id ("/" +:+ folder_path) = get_folder_id folder_path ∧
  get_folder_id (folder_path +:+ "/") = get_folder_id folder_path.
Proof.
  assert (H1 : destination_path ("/" +:+ folder_path) = destination_path folder_path).
  { unfold destination_path. change ("/" +:+ folder_path) with (String "/" folder_path).
    by rewrite strip_cons. }
  assert (H2 : destination_path (folder_path +:+ "/") = destination_path folder_path).
  { unfold destination_path. by rewrite strip_snoc. }
  repeat split; try done; unfold get_folder_id; by rewrite ?H1, ?H2.
Qed.

(** *** Enumerating local files *)

Lemma for_in_cons {A B} (body : A → Py (list B)) (a : A) (l : list A) (w : World) :
  for_in (a :: l) body w =
    match body a w with
    | (Ok bs, w') =>
        match for_in l body w' with
        | (Ok rest, w'') => (Ok (bs ++ rest), w'')
        | (Raise e, w'') => (Raise e, w'')
        end
    | (Raise e, w') => (Raise e, w')
    end.
Proof.
  cbn [for_in]. unfold bind, ret. destruct (body a w) as [[bs|e] w']; [|done].
  by destruct (for_in l body w') as [[rest|e] w''].
Qed.

Lemma iterdir_some d entries w :
  local_dirs w !! Pathlib.str (Path d) = Some entries →
  iterdir (Path d) w = (Ok (dir_paths w d), w).
Proof. intros H. unfold iterdir, dir_paths. by rewrite H. Qed.


Lemma for_in_iterdir ds w :
  Forall (λ d, is_Some (local_dirs w !! Pathlib.str (Path d))) ds →
  for_in ds (λ d, iterdir (Path d)) w = (Ok (ds ≫= dir_paths w), w).
Proof.
  induction 1 as [|d ds [entries Hd] _ IH]; [done|].
  by rewrite for_in_cons, (iterdir_some _ _ _ Hd), IH.
Qed.


Section EnumerationFacts.
Context {regex : Type}.
Variable re_compile : string → option regex.
Variable regex_search : regex → string → bool.
Variable glob_select :
  gmap string (list string) → PosixPath → string → result (list PosixPath).

Lemma regex_body re_pattern d w :
  (let* found := iterdir (Path d) in
   filter_if (λ f, re_search re_compile regex_search re_pattern (PyPath f)) found) w
  = match local_dirs w !! Pathlib.str (Path d) with
    | Some [] => (Ok [], w)
    | Some (_ :: _) => (Raise (regex_failure re_compile re_pattern), w)
    | None => (Raise (FileNotFoundError (Pathlib.str (Path d))), w)
    end.
Proof.
  unfold bind at 1. unfold iterdir.
  destruct (local_dirs w !! Pathlib.str (Path d)) as [[|entry entries]|]; [done| |done].
  cbn [fmap list_fmap filter_if]. unfold bind at 1. by rewrite re_search_path.
Qed.

(** The clause of the comprehension that filters by regular expression
    returns, with the empty list, exactly when every directory exists and is
    empty. *)
Lemma regex_clause_outcome re_pattern ds w :
  let clause := for_in ds (λ d,
    let* found := iterdir (Path d) in
    filter_if (λ f, re_search re_compile regex_search re_pattern (PyPath f)) found) in
  (clause w).2 = w ∧
  (Forall (λ d, local_dirs w !! Pathlib.str (Path d) = Some []) ds → (clause w).1 = Ok []) ∧
  (¬ Forall (λ d, local_dirs w !! Pathlib.str (Path d) = Some []) ds →
   ∃ e, (clause w).1 = Raise e).
Proof.
  cbn zeta. induction ds as [|d ds (IHw & IHok & IHraise)].
  - split; [done|]. split; [done|]. intros []. constructor.
  - rewrite for_in_cons, regex_body.
    destruct (local_dirs w !! Pathlib.str (Path d)) as [[|entry entries]|] eqn:Hd.
    + match goal with |- context [for_in ds ?body w] =>
        destruct (for_in ds body w) as [[rest|e] w'] eqn:Hrun end;
        cbn [fst snd] in *; subst w'.
      * split; [done|]. split.
        -- intros [_ Hall]%Forall_cons. specialize (IHok Hall). by injection IHok as ->.
        -- intros Hnot. destruct IHraise as [e He]; [|done].
           intros Hall. apply Hnot. by constructor.
      * split; [done|]. split; [|by eauto].
        intros [_ Hall]%Forall_cons. by specialize (IHok Hall).
    + cbn [fst snd]. split; [done|]. split; [|by eauto].
      intros [H0 _]%Forall_cons. rewrite Hd in H0. discriminate H0.
    + cbn [fst snd]. split; [done|]. split; [|by eauto].
      intros [H0 _]%Forall_cons. rewrite Hd in H0. discriminate H0.
Qed.

(** X6. Without a glob pattern and without a regular expression,
    [get_local_files] returns the paths of the entries of the directories,
    directory after directory, when every directory exists; it prints one
    line and changes nothing else. *)
Theorem get_local_files_lists_directories (ds : list string) (w : World) :
  Forall (λ d, is_Some (local_dirs w !! Pathlib.str (Path d))) ds →
  ∃ line, get_local_files re_compile regex_search glob_select (DirList ds) None None w
          = (Ok (ds ≫= dir_paths w), set_stdout (stdout w ++ [line]) w).
Proof.
  intros Hds. unfold get_local_files. unfold bind at 1.
  rewrite (for_in_iterdir ds w Hds). unfold bind, ret, print. by eexists.
Qed.


(** X8. With a regular expression and no glob pattern, [get_local_files]
    returns only when every directory exists and is empty, and what it
    returns then is the empty list: the filter never lets a file through. *)
Theorem get_local_files_regex_returns_only_empty (ds : list string)
    (re_pattern : string) (w : World) (files : list PosixPath) :
  (get_local_files re_compile regex_search glob_select (DirList ds) None
     (Some re_pattern) w).1 = Ok files
  ↔ files = [] ∧ Forall (λ d, local_dirs w !! Pathlib.str (Path d) = Some []) ds.
Proof.
  destruct (regex_clause_outcome re_pattern ds w) as (Hw & Hok & Hraise).
  unfold get_local_files. unfold bind at 1. cbn [ret]. unfold bind at 1. cbn [ret].
  unfold bind at 1. unfold bind at 1.
  match goal with |- context [for_in ds ?body w] =>
    destruct (for_in ds body w) as [[found|e] w'] eqn:Hrun end;
    cbn [fst snd] in *; subst w'.
  - unfold bind, ret, print. cbn [fst].
    destruct (decide (Forall (λ d, local_dirs w !! Pathlib.str (Path d) = Some []) ds))
      as [Hall|Hnot].
    + specialize (Hok Hall). injection Hok as ->. naive_solver.
    + by destruct (Hraise Hnot).
  - split; [done|]. intros [_ Hall]. by specialize (Hok Hall).
Qed.

End EnumerationFacts.

(** A local file system with two directories, one of them empty. *)
Lemma get_local_files_lists_directories_witness :
  let w := {| drive := []; list_faults := ∅; next_id := 0; redis := ∅;
              local_dirs := {["/data" := ["a.txt"; "b.txt"]; "/empty" := []]};
              local_files := ∅; guess_type := λ _, None;
              log := []; stdout := [] |} in
  Forall (λ d, is_Some (local_dirs w !! Pathlib.str (Path d))) ["/data"; "/empty"] ∧
  ∃ line, get_local_files any_pattern any_match no_glob (DirList ["/data"; "/empty"])
            None None w
          = (Ok [Path "/data/a.txt"; Path "/data/b.txt"],
             set_stdout (stdout w ++ [line]) w).
Proof.
  intros w. assert (H : Forall (λ d, is_Some (local_dirs w !! Pathlib.str (Path d)))
                          ["/data"; "/empty"]).
  { repeat constructor; by eexists. }
  split; [exact H|].
  exact (get_local_files_lists_directories any_pattern any_match no_glob
           ["/data"; "/empty"] w H).
Defined.


(** *** Seeding the queue *)

Lemma smembers_store_set_ne key k s w :
  k ≠ key → smembers k (set_redis (store_set key s (redis w)) w) = smembers k w.
Proof.
  intros Hne. unfold smembers, store_set. cbn [redis set_redis].
  destruct (decide (s = ∅)).
  - by rewrite lookup_delete_ne.
  - by rewrite lookup_insert_ne.
Qed.

(** [sadd_all] adds the strings of the paths to the set at [key] and
    touches nothing else. *)
Lemma sadd_all_spec key files w :
  ∃ w', sadd_all key files w = (Ok (), w') ∧
        smembers key w' = smembers key w ∪ list_to_set (Pathlib.str <$> files) ∧
        (∀ k, k ≠ key → smembers k w' = smembers k w) ∧
        drive w' = drive w ∧ next_id w' = next_id w ∧ log w' = log w ∧
        list_faults w' = list_faults w ∧ local_files w' = local_files w ∧
        guess_type w' = guess_type w.
Proof.
  revert w. induction files as [|f files IH]; intros w.
  - exists w. repeat split; try done. cbn. set_solver.
  - cbn [sadd_all]. unfold bind at 1. unfold sadd.
    match goal with |- context [sadd_all key files ?w1] =>
      destruct (IH w1) as (w' & -> & Hkey & Hother & Hd & Hn & Hl & Hf & Hlf & Hg) end.
    exists w'. rewrite smembers_store_set in Hkey.
    repeat split; try done.
    + rewrite Hkey. cbn [fmap list_fmap list_to_set foldr]. set_solver.
    + intros k Hk. rewrite (Hother k Hk). by apply smembers_store_set_ne.
Qed.

Lemma cache_upload_files_overwrite_spec (files : list PosixPath)
    (dst_dir key : string) (w : World) :
  ∃ w', cache_upload_files files dst_dir true key w = (Ok (), w') ∧
        smembers key w' = smembers key w ∪ list_to_set (Pathlib.str <$> files) ∧
        (∀ k, k ≠ key → smembers k w' = smembers k w) ∧
        drive w' = drive w ∧ next_id w' = next_id w ∧ list_faults w' = list_faults w ∧
        local_files w' = local_files w ∧ guess_type w' = guess_type w.
Proof.
  unfold cache_upload_files. cbn [negb]. unfold bind at 1. cbn [ret].
  unfold bind at 1. cbn [logger_info]. unfold bind at 1.
  match goal with |- context [sadd_all key files ?w1] =>
    destruct (sadd_all_spec key files w1)
      as (w' & -> & Hkey & Hother & Hd & Hn & _ & Hf & Hlf & Hg) end.
  cbn [logger_info]. eexists. split; [reflexivity|]. by cbn.
Qed.

(** X9. With [overwrite_existing] set, [cache_upload_files] does not
    contact the drive: whatever its state and whether or not listings fail,
    the call returns, the set at [key] gains the strings of all the local
    paths, the other keys keep their sets, and the drive is unchanged. *)
Theorem cache_upload_files_overwrite (local_files : list PosixPath)
    (dst_dir key : string) (w : World) :
  ∃ w', cache_upload_files local_files dst_dir true key w = (Ok (), w') ∧
        smembers key w' = smembers key w ∪ list_to_set (Pathlib.str <$> local_files) ∧
        (∀ k, k ≠ key → smembers k w' = smembers k w) ∧
        drive w' = drive w ∧ next_id w' = next_id w.
Proof.
  destruct (cache_upload_files_overwrite_spec local_files dst_dir key w)
    as (w' & ? & ? & ? & ? & ? & _).
  by exists w'.
Qed.

Lemma cache_upload_files_empty_destination_spec (files : list PosixPath)
    (dst_dir key : string) (w w1 : World) (i : string) :
  list_faults w = ∅ →
  get_folder_id dst_dir w = (Ok (Some i), w1) →
  children i (drive w1) = [] →
  ∃ w', cache_upload_files files dst_dir false key w = (Ok (), w') ∧
        smembers key w' = smembers key w ∪ list_to_set (Pathlib.str <$> files) ∧
        (∀ k, k ≠ key → smembers k w' = smembers k w) ∧
        drive w' = drive w1 ∧ next_id w' = next_id w1 ∧ list_faults w' = ∅ ∧
        local_files w' = local_files w ∧ guess_type w' = guess_type w.
Proof.
  intros Hf Hrun Hchildren.
  destruct (get_folder_id_ok dst_dir w Hf) as (i' & w1' & Hrun' & Hf1 & Hredis & _).
  rewrite Hrun in Hrun'. injection Hrun' as <- <-.
  pose proof (get_folder_id_local dst_dir w) as Hlocal. rewrite Hrun in Hlocal.
  cbn [snd] in Hlocal. destruct Hlocal as (_ & Hfiles & Hguess).
  unfold cache_upload_files. cbn [negb].
  unfold bind at 1. unfold bind at 1. rewrite Hrun.
  unfold bind at 1. unfold ListFile_GetList. change (fmt_opt (Some i)) with i.
  rewrite (no_faults_lookup _ _ Hf1), Hchildren.
  unfold bind at 1. cbn [logger_info]. unfold lift. cbn [set_difference].
  unfold bind at 1. cbn [logger_info]. unfold bind at 1.
  match goal with |- context [sadd_all key ?fs ?w2] =>
    destruct (sadd_all_spec key fs w2)
      as (w' & -> & Hkey & Hother & Hd & Hn & _ & Hf' & Hlf & Hg) end.
  cbn [logger_info]. eexists. split; [reflexivity|].
  unfold smembers in *. cbn in *. rewrite Hredis in *.
  repeat split; try done; [|congruence..].
  rewrite Hkey. f_equal. apply set_eq. intros x.
  rewrite !elem_of_list_to_set, !list_elem_of_fmap.
  by setoid_rewrite elem_of_remove_dups.
Qed.

(** X10. With [overwrite_existing] unset, when no listing fails and the
    resolved destination folder has no children, [cache_upload_files]
    returns and the set at [key] gains the strings of all the local paths;
    the drive is as the resolution of the destination left it. *)
Theorem cache_upload_files_empty_destination (local_files : list PosixPath)
    (dst_dir key : string) (w w1 : World) (i : string) :
  list_faults w = ∅ →
  get_folder_id dst_dir w = (Ok (Some i), w1) →
  children i (drive w1) = [] →
  ∃ w', cache_upload_files local_files dst_dir false key w = (Ok (), w') ∧
        smembers key w' = smembers key w ∪ list_to_set (Pathlib.str <$> local_files) ∧
        (∀ k, k ≠ key → smembers k w' = smembers k w) ∧
        drive w' = drive w1.
Proof.
  intros Hf Hrun Hchildren.
  destruct (cache_upload_files_empty_destination_spec local_files dst_dir key w w1 i
              Hf Hrun Hchildren) as (w' & ? & ? & ? & ? & _).
  by exists w'.
Qed.

Lemma cache_upload_files_empty_destination_witness :
  list_faults empty_world = ∅ ∧
  (get_folder_id "backup/2024" empty_world).1 = Ok (Some "id1") ∧
  children "id1" (drive (get_folder_id "backup/2024" empty_world).2) = [] ∧
  ∃ w', cache_upload_files [Path "/data/x.txt"; Path "/data/y.txt"] "backup/2024" false
          "gdrive_upload" empty_world = (Ok (), w') ∧
        smembers "gdrive_upload" w'
        = smembers "gdrive_upload" empty_world
          ∪ list_to_set (Pathlib.str <$> [Path "/data/x.txt"; Path "/data/y.txt"]) ∧
        (∀ k, k ≠ "gdrive_upload" → smembers k w' = smembers k empty_world) ∧
        drive w' = drive (get_folder_id "backup/2024" empty_world).2.
Proof.
  split; [reflexivity|]. split; [reflexivity|]. split; [reflexivity|].
  exact (cache_upload_files_empty_destination _ "backup/2024" "gdrive_upload" empty_world
           (get_folder_id "backup/2024" empty_world).2 "id1" eq_refl eq_refl eq_refl).
Defined.

(** X11. Seeding the same files a second time with [overwrite_existing]
    leaves the set at [key] as the first seeding left it: a path that is
    queued is not queued twice. *)
Theorem cache_upload_files_twice (local_files : list PosixPath)
    (dst_dir key : string) (w : World) :
  ∃ w1 w2, cache_upload_files local_files dst_dir true key w = (Ok (), w1) ∧
           cache_upload_files local_files dst_dir true key w1 = (Ok (), w2) ∧
           smembers key w2 = smembers key w1 ∧
           size (smembers key w2) = size (smembers key w1).
Proof.
  destruct (cache_upload_files_overwrite_spec local_files dst_dir key w)
    as (w1 & Hrun1 & Hkey1 & _).
  destruct (cache_upload_files_overwrite_spec local_files dst_dir key w1)
    as (w2 & Hrun2 & Hkey2 & _).
  exists w1, w2. split; [done|]. split; [done|].
  assert (smembers key w2 = smembers key w1) as -> by (rewrite Hkey2, Hkey1; set_solver).
  done.
Qed.

(** *** One worker draining the queue *)

Lemma spop_world choice key w r w' :
  spop choice key w = (r, w') →
  drive w' = drive w ∧ next_id w' = next_id w ∧ list_faults w' = list_faults w ∧
  local_dirs w' = local_dirs w ∧ local_files w' = local_files w ∧
  guess_type w' = guess_type w.
Proof.
  unfold spop. destruct (elements (smembers key w) !! _); by intros [= <- <-].
Qed.

Lemma uploaded_files_cons guess n dst item order :
  uploaded_files guess n dst (item :: order)
  = uploaded guess n item dst :: uploaded_files guess (S n) dst order.
Proof.
  unfold uploaded_files. cbn [imap]. rewrite Nat.add_0_r. f_equal.
  apply imap_ext. intros k x _. cbn. f_equal. lia.
Qed.

(** A worker that polls alone a set of files that can be read takes and
    uploads every item of the set and returns. *)
Lemma worker_drains n : ∀ fuel choice key dst c w,
  size (smembers key w) = n → 2 * n + 1 ≤ fuel →
  (∀ item, item ∈ smembers key w → readable w item) →
  ∃ order w',
    worker_run fuel choice key (Polling (Some dst) c) w = (Returned, w') ∧
    order ≡ₚ elements (smembers key w) ∧
    drive w' = drive w ++ uploaded_files (guess_type w) (next_id w) dst order ∧
    next_id w' = next_id w + List.length order ∧
    smembers key w' = ∅ ∧ list_faults w' = list_faults w.
Proof.
  induction n as [|n IH]; intros fuel choice key dst c w Hsize Hfuel Hall.
  - destruct fuel as [|fuel]; [lia|].
    apply size_empty_inv, leibniz_equiv in Hsize.
    cbn [worker_run proc_step].
    pose proof (spop_spec (choice fuel) key w) as Hs.
    destruct (spop (choice fuel) key w) as [[[item|]|e] w1]; [| |done].
    + destruct Hs as [Hin _]. rewrite Hsize in Hin. by apply not_elem_of_empty in Hin.
    + destruct Hs as [_ ->]. exists [], (info "All files are uploaded!" w).
      repeat split.
      * by destruct fuel.
      * by rewrite Hsize, elements_empty.
      * cbn. by rewrite app_nil_r.
      * cbn. lia.
      * exact Hsize.
  - destruct fuel as [|[|fuel]]; [lia|lia|].
    cbn [worker_run]. cbn [proc_step].
    pose proof (spop_spec (choice (S fuel)) key w) as Hs.
    pose proof (spop_world (choice (S fuel)) key w) as Hw.
    destruct (spop (choice (S fuel)) key w) as [[[item|]|e] w1]; [| |done].
    + destruct Hs as [Hin Hq].
      destruct (Hw _ _ eq_refl) as (Hd1 & Hn1 & Hf1 & _ & Hl1 & Hg1).
      destruct (holding_step key (choice fuel) dst c item w1)
        as (w2 & -> & Hd2 & Hn2 & Hr2 & Hf2 & _ & Hl2 & Hg2).
      { apply (readable_congr w); [done|]. by apply Hall. }
      assert (Hq2 : smembers key w2 = smembers key w ∖ {[item]})
        by (unfold smembers in *; by rewrite Hr2).
      assert (Hsize2 : size (smembers key w2) = n).
      { rewrite Hq2, size_difference by set_solver. rewrite size_singleton. lia. }
      destruct (IH fuel choice key dst (S c) w2 Hsize2 ltac:(lia))
        as (order & w' & -> & Hperm & Hd & Hn & Hempty & Hf).
      { intros item' Hin'. apply (readable_congr w); [congruence|].
        apply Hall. rewrite Hq2 in Hin'. set_solver. }
      exists (item :: order), w'. repeat split; try done.
      * rewrite Hperm, Hq2.
        rewrite (union_difference_singleton_L item (smembers key w) Hin) at 2.
        symmetry. apply elements_union_singleton. set_solver.
      * rewrite Hd, Hd2, Hn2, Hd1, Hn1, Hg2, Hg1, uploaded_files_cons.
        by rewrite <- app_assoc.
      * rewrite Hn, Hn2, Hn1. cbn. lia.
      * by rewrite Hf, Hf2, Hf1.
    + destruct Hs as [Hempty _]. rewrite Hempty, size_empty in Hsize. lia.
Qed.

Lemma upload_files_drains_spec (fuel : nat) (choice : nat → nat) (dst_dir key : string)
    (w : World) :
  list_faults w = ∅ →
  (∀ item, item ∈ smembers key w → readable w item) →
  2 * size (smembers key w) + 2 ≤ fuel →
  ∃ i w1 order w',
    get_folder_id dst_dir w = (Ok (Some i), w1) ∧
    upload_files fuel choice dst_dir key w = (Returned, w') ∧
    order ≡ₚ elements (smembers key w) ∧
    drive w' = drive w1 ++ uploaded_files (guess_type w) (next_id w1) i order ∧
    smembers key w' = ∅.
Proof.
  intros Hf Hall Hfuel.
  destruct (get_folder_id_ok dst_dir w Hf) as (i & w1 & Hrun & Hf1 & Hredis & _).
  pose proof (get_folder_id_local dst_dir w) as Hlocal. rewrite Hrun in Hlocal.
  cbn [snd] in Hlocal. destruct Hlocal as (_ & Hfiles & Hguess).
  destruct fuel as [|fuel]; [lia|].
  unfold upload_files. cbn [worker_run proc_step]. rewrite Hrun.
  match goal with |- context [worker_run fuel choice key _ ?w2] =>
    destruct (worker_drains (size (smembers key w)) fuel choice key i 0 w2)
      as (order & w' & Hrun2 & Hperm & Hd & _ & Hempty & _) end.
  { unfold smembers. cbn. by rewrite Hredis. }
  { lia. }
  { intros item Hin. apply (readable_congr w); [done|]. apply Hall.
    revert Hin. unfold smembers. cbn. by rewrite Hredis. }
  exists i, w1, order, w'. repeat split; try done.
  - rewrite Hperm. unfold smembers. cbn. by rewrite Hredis.
  - rewrite Hd. cbn. by rewrite Hguess.
Qed.

(** X12. A worker that runs [upload_files] alone, on a drive whose listings
    do not fail, over a set whose items are local files that can be read,
    with enough steps for the items the set holds, returns with the set
    empty; the files it added to the drive after resolving the destination
    are one per item of the set, in the order the items were taken, each
    under the resolved folder, titled with the name of the item's path and
    of the type guessed from the item, or of the type of plain bytes where
    there is no guess. *)
Theorem upload_files_drains (fuel : nat) (choice : nat → nat) (dst_dir key : string)
    (w : World) :
  list_faults w = ∅ →
  (∀ item, item ∈ smembers key w → readable w item) →
  2 * size (smembers key w) + 2 ≤ fuel →
  ∃ i w1 order w',
    get_folder_id dst_dir w = (Ok (Some i), w1) ∧
    upload_files fuel choice dst_dir key w = (Returned, w') ∧
    order ≡ₚ elements (smembers key w) ∧
    drive w' = drive w1 ++ uploaded_files (guess_type w) (next_id w1) i order ∧
    smembers key w' = ∅.
Proof. apply upload_files_drains_spec. Qed.

Lemma upload_files_drains_witness :
  let w := set_redis {["gdrive_upload" := {["/a/report.txt"; "/b/report.txt"]}]}
             reports_world in
  list_faults w = ∅ ∧
  (∀ item, item ∈ smembers "gdrive_upload" w → readable w item) ∧
  2 * size (smembers "gdrive_upload" w) + 2 ≤ 6 ∧
  ∃ i w1 order w',
    get_folder_id "dst" w = (Ok (Some i), w1) ∧
    upload_files 6 (λ _, 0) "dst" "gdrive_upload" w = (Returned, w') ∧
    order ≡ₚ elements (smembers "gdrive_upload" w) ∧
    drive w' = drive w1 ++ uploaded_files (guess_type w) (next_id w1) i order ∧
    smembers "gdrive_upload" w' = ∅.
Proof.
  intros w. assert (H : 2 * size (smembers "gdrive_upload" w) + 2 ≤ 6) by (vm_compute; lia).
  assert (Hall : ∀ item, item ∈ smembers "gdrive_upload" w → readable w item).
  { intros item Hin%elem_of_elements.
    assert (Hel : elements (smembers "gdrive_upload" w)
                  = ["/a/report.txt"; "/b/report.txt"]) by (by vm_compute).
    rewrite Hel in Hin.
    apply elem_of_cons in Hin as [->|Hin]; [split; [discriminate|reflexivity]|].
    apply list_elem_of_singleton in Hin as ->. split; [discriminate|reflexivity]. }
  split; [reflexivity|]. split; [exact Hall|]. split; [exact H|].
  exact (upload_files_drains 6 (λ _, 0) "dst" "gdrive_upload" w eq_refl Hall H).
Defined.

(** The files of that run: both are titled [report.txt] and typed as
    text. *)
Lemma upload_files_two_reports :
  let w := set_redis {["gdrive_upload" := {["/a/report.txt"; "/b/report.txt"]}]}
             reports_world in
  (upload_files 6 (λ _, 0) "dst" "gdrive_upload" w).1 = Returned ∧
  drive (upload_files 6 (λ _, 0) "dst" "gdrive_upload" w).2 =
    drive reports_world ++
    [ {| gd_id := "id0"; gd_title := "report.txt"; gd_mimeType := "text/plain";
         gd_parents := ["d1"]; gd_trashed := false |};
      {| gd_id := "id1"; gd_title := "report.txt"; gd_mimeType := "text/plain";
         gd_parents := ["d1"]; gd_trashed := false |} ].
Proof. by vm_compute. Qed.

(** *** Uploads in a run of several workers *)

Lemma held_cons p ps : held (p :: ps) = holds p ++ held ps.
Proof. unfold held. cbn [omap list_omap]. by destruct p. Qed.

Lemma held_app ps qs : held (ps ++ qs) = held ps ++ held qs.
Proof.
  induction ps as [|p ps IH]; [done|].
  cbn [app]. by rewrite !held_cons, IH, app_assoc.
Qed.

Lemma held_insert ps i p p' :
  ps !! i = Some p → holds p ++ held (<[i:=p']> ps) ≡ₚ holds p' ++ held ps.
Proof.
  intros Hp. rewrite insert_take_drop by by eapply lookup_lt_Some.
  rewrite <- (take_drop_middle ps i p Hp) at 3.
  rewrite !held_app, !held_cons. solve_Permutation.
Qed.

(** What one step does to the items that the workers hold. *)
Lemma step_held key σ i a σ' :
  step key σ (i, a) σ' →
  match a with
  | Take (Some item) => held (procs σ') ≡ₚ item :: held (procs σ)
  | Upload item => item :: held (procs σ') ≡ₚ held (procs σ)
  | _ => held (procs σ') ≡ₚ held (procs σ)
  end.
Proof.
  inversion 1 as [? ? choice p ? p' w' Hp Hstep]; subst. cbn [procs].
  pose proof (held_insert (procs σ) i p p' Hp) as Hperm.
  destruct p as [dst_dir|dst_dir_id count|dst_dir_id count local_file| |e];
    cbn [proc_step] in Hstep; [| | |done|done].
  - destruct (get_folder_id dst_dir (world σ)) as [[r|e] w1];
      injection Hstep as <- <- <-; exact Hperm.
  - destruct (spop choice key (world σ)) as [[[item|]|e] w1];
      injection Hstep as <- <- <-; cbn in Hperm; by rewrite Hperm.
  - destruct (bind _ _ (world σ)) as [[r|e] w1];
      injection Hstep as <- <- <-; exact Hperm.
Qed.

Lemma uploads_cons i a es :
  uploads ((i, a) :: es) = match a with Upload item => item :: uploads es | _ => uploads es end.
Proof. unfold uploads. cbn [omap list_omap snd]. by destruct a. Qed.

Lemma delivered_cons i a es :
  delivered ((i, a) :: es)
  = match a with Take (Some item) => item :: delivered es | _ => delivered es end.
Proof. unfold delivered. rewrite deliveries_cons. by destruct a as [|[item|]|]. Qed.

(** Every item taken is either uploaded or still held. *)
Lemma run_held key σ es σ' :
  run key σ es σ' →
  held (procs σ) ++ delivered es ≡ₚ uploads es ++ held (procs σ').
Proof.
  induction 1 as [σ|σ [i a] σ' es σ'' Hstep Hrun IH].
  - cbn. by rewrite app_nil_r.
  - apply step_held in Hstep. rewrite uploads_cons, delivered_cons.
    destruct a as [|[item|]|item].
    + by rewrite <- Hstep.
    + rewrite <- IH, Hstep. solve_Permutation.
    + by rewrite <- Hstep.
    + rewrite <- Hstep. cbn. rewrite <- IH. solve_Permutation.
Qed.

(** X13. In any run of any number of workers, none of which holds an item
    at the start, the uploads started are among the items that [spop]
    returned, counted with multiplicity: no item is uploaded twice, and
    every uploaded item was in the set when the run started. *)
Theorem uploads_at_most_once (key : string) (σ σ' : system) (es : list (nat * action)) :
  run key σ es σ' → held (procs σ) = [] →
  uploads es ⊆+ delivered es ∧ NoDup (uploads es) ∧
  ∀ item, item ∈ uploads es → item ∈ smembers key (world σ).
Proof.
  intros Hrun Hheld.
  pose proof (run_held key σ es σ' Hrun) as Hperm. rewrite Hheld in Hperm. cbn in Hperm.
  destruct (run_queue key σ es σ' Hrun) as (Hnd & Hin & _).
  assert (Hsub : uploads es ⊆+ delivered es).
  { rewrite Hperm. by apply submseteq_inserts_r. }
  split; [done|]. split.
  - rewrite Hperm in Hnd. by apply NoDup_app in Hnd as [? _].
  - intros item Hitem. apply Hin. by eapply elem_of_submseteq.
Qed.

Lemma uploads_at_most_once_witness :
  let key := "gdrive_upload" in
  let schedule := [(0, 0); (1, 0); (0, 0); (0, 0); (1, 0)] in
  let es := (exec key schedule two_workers).1 in
  let σ' := (exec key schedule two_workers).2 in
  run key two_workers es σ' ∧ held (procs two_workers) = [] ∧
  uploads es ⊆+ delivered es ∧ NoDup (uploads es) ∧
  ∀ item, item ∈ uploads es → item ∈ smembers key (world two_workers).
Proof.
  intros key schedule es σ'.
  split; [apply exec_run|]. split; [reflexivity|].
  exact (uploads_at_most_once key two_workers σ' es (exec_run key schedule two_workers)
           eq_refl).
Defined.

(** *** What a resolution reads *)

Lemma search_file_tree_congr dst segs parent w w2 :
  same_remote w w2 →
  (search_file_tree dst segs parent w2).1 = (search_file_tree dst segs parent w).1 ∧
  same_remote (search_file_tree dst segs parent w).2 (search_file_tree dst segs parent w2).2.
Proof.
  revert parent w w2. induction segs as [|s rest IH]; intros parent w w2 Hsame; [done|].
  destruct Hsame as (Hd & Hn & Hf).
  destruct (list_faults w !! parent) as [content|] eqn:Hfault.
  - rewrite !(search_file_tree_fault _ _ _ _ _ content) by (by rewrite ?Hf). by cbn.
  - rewrite (search_file_tree_cons dst s rest parent w) by done.
    rewrite (search_file_tree_cons dst s rest parent w2) by (by rewrite Hf).
    cbn zeta. rewrite Hd, Hn.
    destruct (find (by_title s) (children parent (drive w))) as [file|].
    + destruct (String.eqb s dst); [by cbn|]. apply IH. by cbn.
    + destruct (String.eqb s dst); [by cbn|]. apply IH. by cbn.
Qed.

Lemma get_folder_id_congr folder_path w w2 :
  same_remote w w2 →
  (get_folder_id folder_path w2).1 = (get_folder_id folder_path w).1 ∧
  same_remote (get_folder_id folder_path w).2 (get_folder_id folder_path w2).2.
Proof.
  intros Hsame. unfold get_folder_id.
  destruct (last (destination_path folder_path)) as [dst|]; [|done].
  unfold bind. cbn [logger_info].
  match goal with |- context [search_file_tree ?d ?l ?p (set_log ?lg w)] =>
    match goal with |- context [search_file_tree d l p (set_log ?lg2 w2)] =>
      pose proof (search_file_tree_congr d l p (set_log lg w) (set_log lg2 w2) Hsame) as H;
      destruct (search_file_tree d l p (set_log lg w)) as [[r|e] w1];
      destruct (search_file_tree d l p (set_log lg2 w2)) as [[r2|e2] w3]
    end
  end; exact H.
Qed.

(** X14. [get_folder_id] reads nothing but the remote drive: in two worlds
    with the same files, next identifier and listing failures, whatever
    their Redis sets, logs, standard outputs and local directories, it has
    the same outcome and leaves the same drive. *)
Theorem get_folder_id_reads_only_the_drive (folder_path : string) (w w2 : World) :
  same_remote w w2 →
  (get_folder_id folder_path w2).1 = (get_folder_id folder_path w).1 ∧
  same_remote (get_folder_id folder_path w).2 (get_folder_id folder_path w2).2.
Proof. apply get_folder_id_congr. Qed.

Lemma get_folder_id_reads_only_the_drive_witness :
  same_remote empty_world queue_world ∧
  (get_folder_id "A/B" queue_world).1 = (get_folder_id "A/B" empty_world).1 ∧
  same_remote (get_folder_id "A/B" empty_world).2 (get_folder_id "A/B" queue_world).2.
Proof.
  assert (H : same_remote empty_world queue_world) by done.
  split; [exact H|]. exact (get_folder_id_reads_only_the_drive "A/B" _ _ H).
Defined.

Lemma get_folder_id_again folder_path w i w1 :
  list_faults w = ∅ →
  get_folder_id folder_path w = (Ok (Some i), w1) →
  ∀ w2, list_faults w2 = ∅ → drive w2 = drive w1 →
    ∃ w3, get_folder_id folder_path w2 = (Ok (Some i), w3) ∧
          drive w3 = drive w2 ∧ next_id w3 = next_id w2.
Proof.
  intros Hf Hrun w2 Hf2 Hd. unfold get_folder_id in *.
  destruct (last (destination_path folder_path)) as [dst|]; [|done].
  unfold bind at 1 in Hrun. unfold bind at 1. cbn [logger_info] in *.
  eapply search_file_tree_again
    with (ext := []) (w2 := info ("Searching for folder '" +:+ dst +:+ "' id") w2)
    in Hrun as (w3 & Hrun2 & Hd3 & Hn3);
    [| exact Hf | exact Hf2 | by rewrite app_nil_r].
  by exists w3.
Qed.

(** *** The whole script for one process *)

Section MainFacts.
Context {regex : Type}.
Variable re_compile : string → option regex.
Variable regex_search : regex → string → bool.
Variable glob_select :
  gmap string (list string) → PosixPath → string → result (list PosixPath).

Lemma get_local_files_one_dir src entries w :
  local_dirs w !! Pathlib.str (Path src) = Some entries →
  ∃ line, get_local_files re_compile regex_search glob_select (OneDir src) None None w
          = (Ok (dir_paths w src), set_stdout (stdout w ++ [line]) w).
Proof.
  intros Hdir. unfold get_local_files. unfold bind at 1.
  rewrite for_in_single, (iterdir_some _ _ _ Hdir), app_nil_r.
  unfold bind, ret, print. by eexists.
Qed.

(** The seeding part of [main] when a source directory is given without
    patterns. *)
Lemma seed_spec args src entries w i w1 :
  args_src args = Some src → src ≠ "" →
  args_glob args = None → args_re args = None →
  list_faults w = ∅ →
  local_dirs w !! Pathlib.str (Path src) = Some entries →
  get_folder_id (args_dst args) w = (Ok (Some i), w1) →
  (args_overwrite_existing args = false → children i (drive w1) = []) →
  ∃ ws, seed re_compile regex_search glob_select args w = (Ok (), ws) ∧
        smembers default_key ws
        = smembers default_key w ∪ list_to_set (Pathlib.str <$> dir_paths w src) ∧
        list_faults ws = ∅ ∧
        local_files ws = local_files w ∧ guess_type ws = guess_type w ∧
        ∃ w3, get_folder_id (args_dst args) ws = (Ok (Some i), w3) ∧
              drive w3 = drive w1 ∧ next_id w3 = next_id w1.
Proof.
  intros Hsrc Hne Hglob Hre Hf Hdir Hrun Hdest.
  unfold seed. rewrite Hsrc, Hglob, Hre.
  destruct (String.eqb_spec src "") as [->|_]; [done|].
  destruct (get_local_files_one_dir src entries w Hdir) as (line & Hlocal).
  unfold bind at 1. rewrite Hlocal.
  set (wa := set_stdout (stdout w ++ [line]) w).
  assert (Hsame : same_remote w wa) by done.
  destruct (get_folder_id_congr (args_dst args) w wa Hsame) as (Hres & Hd & Hn & Hfa).
  rewrite Hrun in Hres, Hd, Hn, Hfa. cbn [fst snd] in Hres, Hd, Hn, Hfa.
  destruct (get_folder_id (args_dst args) wa) as [ra wb] eqn:Hruna.
  cbn [fst snd] in Hres, Hd, Hn, Hfa. subst ra.
  destruct (args_overwrite_existing args) eqn:Hover.
  - destruct (cache_upload_files_overwrite_spec (dir_paths w src) (args_dst args)
                default_key wa) as (ws & Hseed & Hkey & _ & Hds & Hns & Hfs & Hls & Hgs).
    exists ws. split; [done|]. split; [done|]. split; [by rewrite Hfs|].
    split; [done|]. split; [done|].
    assert (Hsame2 : same_remote wa ws) by done.
    destruct (get_folder_id_congr (args_dst args) wa ws Hsame2) as (Hres2 & Hd2 & Hn2 & _).
    rewrite Hruna in Hres2, Hd2, Hn2. cbn [fst snd] in Hres2, Hd2, Hn2.
    destruct (get_folder_id (args_dst args) ws) as [rs w3]. cbn [fst snd] in *. subst rs.
    exists w3. split; [done|]. split; congruence.
  - destruct (cache_upload_files_empty_destination_spec (dir_paths w src) (args_dst args)
                default_key wa wb i) as (ws & Hseed & Hkey & _ & Hds & Hns & Hfs & Hls & Hgs).
    { exact Hf. }
    { exact Hruna. }
    { rewrite Hd. by apply Hdest. }
    exists ws. split; [done|]. split; [done|]. split; [done|].
    split; [done|]. split; [done|].
    destruct (get_folder_id_again (args_dst args) wa i wb Hf Hruna ws Hfs Hds)
      as (w3 & Hrun3 & Hd3 & Hn3).
    exists w3. split; [done|]. split; congruence.
Qed.

(** X15. The script from end to end, for one process: with a source
    directory that exists, no glob pattern and no regular expression, on a
    drive whose listings do not fail and, unless [overwrite_existing] is set,
    whose destination folder has no children, when every item that is in
    the set or is the path of an entry of the source directory is a local
    file that can be read, [main] with enough steps returns with the set at
    the default key empty. After resolving the destination it has added to
    the drive one file for each of these items, each under the destination
    folder, titled with the name of the path and of the type guessed from
    the item, or of the type of plain bytes where there is no guess. *)
Theorem main_uploads_everything (args : Args) (src : string) (entries : list string)
    (fuel : nat) (choice : nat → nat) (w w1 : World) (i : string) :
  args_src args = Some src → src ≠ "" →
  args_glob args = None → args_re args = None →
  list_faults w = ∅ →
  local_dirs w !! Pathlib.str (Path src) = Some entries →
  get_folder_id (args_dst args) w = (Ok (Some i), w1) →
  (args_overwrite_existing args = false → children i (drive w1) = []) →
  let queue := smembers default_key w ∪ list_to_set (Pathlib.str <$> dir_paths w src) in
  (∀ item, item ∈ queue → readable w item) →
  2 * size queue + 2 ≤ fuel →
  ∃ order w',
    main re_compile regex_search glob_select args fuel choice w = (Returned, w') ∧
    order ≡ₚ elements queue ∧
    drive w' = drive w1 ++ uploaded_files (guess_type w) (next_id w1) i order ∧
    smembers default_key w' = ∅.
Proof.
  intros Hsrc Hne Hglob Hre Hf Hdir Hrun Hdest queue Hall Hfuel.
  destruct (seed_spec args src entries w i w1 Hsrc Hne Hglob Hre Hf Hdir Hrun Hdest)
    as (ws & Hseed & Hkey & Hfs & Hls & Hgs & w3 & Hrun3 & Hd3 & Hn3).
  unfold main. rewrite Hseed.
  destruct (upload_files_drains_spec fuel choice (args_dst args) default_key ws Hfs)
    as (i' & w3' & order & w' & Hrun3' & Hup & Hperm & Hd & Hempty).
  { intros item Hin. apply (readable_congr w); [done|]. apply Hall. by rewrite Hkey in Hin. }
  { by rewrite Hkey. }
  rewrite Hrun3 in Hrun3'. injection Hrun3' as <- <-.
  exists order, w'. split; [done|]. split; [by rewrite Hperm, Hkey|].
  split; [by rewrite Hd, Hd3, Hn3, Hgs|done].
Qed.

End MainFacts.

(** The world [three_files_world] and the arguments
    [--src /data --dst backup/2024]. *)
Lemma main_uploads_everything_witness :
  let w := three_files_world in
  let args := {| args_src := Some "/data"; args_dst := "backup/2024";
                 args_glob := None; args_re := None;
                 args_overwrite_existing := false |} in
  let w1 := (get_folder_id "backup/2024" w).2 in
  let queue := smembers default_key w ∪ list_to_set (Pathlib.str <$> dir_paths w "/data") in
  (∀ item, item ∈ queue → readable w item) ∧
  2 * size queue + 2 ≤ 8 ∧ children "id1" (drive w1) = [] ∧
  ∃ order w',
    main any_pattern any_match no_glob args 8 (λ _, 0) w = (Returned, w') ∧
    order ≡ₚ elements queue ∧
    drive w' = drive w1 ++ uploaded_files (guess_type w) (next_id w1) "id1" order ∧
    smembers default_key w' = ∅.
Proof.
  intros w args w1 queue.
  assert (Hfuel : 2 * size queue + 2 ≤ 8) by (vm_compute; lia).
  assert (Hall : ∀ item, item ∈ queue → readable w item).
  { intros item Hin%elem_of_elements.
    assert (Hel : elements queue = ["/data/c.txt"; "/data/a.txt"; "/data/b.txt"])
      by (by vm_compute).
    rewrite Hel in Hin.
    apply elem_of_cons in Hin as [->|Hin]; [split; [discriminate|reflexivity]|].
    apply elem_of_cons in Hin as [->|Hin]; [split; [discriminate|reflexivity]|].
    apply list_elem_of_singleton in Hin as ->. split; [discriminate|reflexivity]. }
  split; [exact Hall|]. split; [exact Hfuel|]. split; [reflexivity|].
  refine (main_uploads_everything any_pattern any_match no_glob args "/data"
            ["a.txt"; "b.txt"; "c.txt"] 8 (λ _, 0) w w1 "id1"
            eq_refl _ eq_refl eq_refl eq_refl eq_refl eq_refl (λ _, eq_refl) Hall Hfuel).
  discriminate.
Defined.

(** The run of the witness, evaluated: two folders are created and the
    three files are uploaded under the second, as text. *)
Lemma main_three_files :
  let args := {| args_src := Some "/data"; args_dst := "backup/2024";
                 args_glob := None; args_re := None;
                 args_overwrite_existing := false |} in
  let out := main any_pattern any_match no_glob args 8 (λ _, 0) three_files_world in
  out.1 = Returned ∧
  gd_title <$> drive out.2 = ["backup"; "2024"; "c.txt"; "a.txt"; "b.txt"] ∧
  gd_parents <$> drive out.2 = [["root"]; ["id0"]; ["id1"]; ["id1"]; ["id1"]] ∧
  gd_mimeType <$> drive out.2 =
    [folder_mimeType; folder_mimeType; "text/plain"; "text/plain"; "text/plain"] ∧
  redis out.2 = ∅.
Proof. by vm_compute. Qed.

(** The same run when one of the three entries is a directory: the worker
    stops with an exception at that item, which has left the set, and the
    items after it stay in the set. *)
Lemma main_stops_at_a_directory :
  let args := {| args_src := Some "/data"; args_dst := "backup/2024";
                 args_glob := None; args_re := None;
                 args_overwrite_existing := false |} in
  let out := main any_pattern any_match no_glob args 8 (λ _, 0) files_and_directory_world in
  out.1 = Crashed (IsADirectoryError "/data/c") ∧
  gd_title <$> drive out.2 = ["backup"; "2024"] ∧
  smembers default_key out.2 = {["/data/a.txt"; "/data/b.txt"]}.
Proof. by vm_compute. Qed.

(** *** From a directory entry to the remote title *)

Lemma parse_anchor_cases s :
  parse_anchor s = "" ∨ parse_anchor s = "/" ∨ parse_anchor s = "//".
Proof.
  unfold parse_anchor.
  destruct (String.prefix "///" s); [by auto|].
  destruct (String.prefix "//" s); [by auto|].
  destruct (String.prefix "/" s); by auto.
Qed.

Lemma append_assoc (a b c : string) : (a +:+ b) +:+ c = a +:+ (b +:+ c).
Proof.
  induction a as [|x a IH]; [done|].
  change (String x ((a +:+ b) +:+ c) = String x (a +:+ (b +:+ c))). by rewrite IH.
Qed.

Lemma join_snoc (ps : list string) (q e : string) :
  Str.join "/" ((q :: ps) ++ [e]) = Str.join "/" (q :: ps) +:+ "/" +:+ e.
Proof.
  unfold Str.join. revert q. induction ps as [|p ps IH]; intros q; [done|].
  change ((q :: p :: ps) ++ [e]) with (q :: ((p :: ps) ++ [e])).
  cbn [app]. rewrite !concat_cons_cons. cbn [app] in IH. rewrite IH.
  by rewrite !append_assoc.
Qed.

Lemma str_joinpath d e :
  Pathlib.str (joinpath (Path d) e) = e ∨
  ∃ dir, Pathlib.str (joinpath (Path d) e) = dir +:+ "/" +:+ e.
Proof.
  unfold Pathlib.str, joinpath, Path. cbn [anchor parts].
  generalize (filter (λ part, part ≠ "" ∧ part ≠ ".") (Str.split "/" d)).
  intros [|q ps].
  - cbn [app]. change (Str.join "/" [e]) with e.
    destruct (parse_anchor_cases d) as [-> | [-> | ->]].
    + by left.
    + right. by exists "".
    + right. by exists "/".
  - right. exists (parse_anchor d +:+ Str.join "/" (q :: ps)).
    rewrite append_assoc, <- join_snoc. by destruct (parse_anchor d).
Qed.

Lemma name_of_entry d e :
  e ≠ "" → e ≠ "." → Str.contains "/" e = false →
  Pathlib.name (Path (Pathlib.str (joinpath (Path d) e))) = e.
Proof.
  intros Hne Hdot Hsep. destruct (str_joinpath d e) as [-> | [dir ->]].
  - unfold Pathlib.name, Path. cbn [parts].
    by rewrite (split_without_sep _ _ Hsep), filter_cons_True.
  - by apply name_of_joined.
Qed.

(** X16. A file found by [iterdir] in a source directory is uploaded under
    its own entry name: for every directory [d] and every entry name [e]
    (not empty, not ["."], without a slash), when the string of the path
    [Path(d) / e], which is what the seeding puts in the queue, is that of a
    local file that can be read, uploading it adds to the drive one file
    titled [e] under the destination, of the type guessed from that string,
    or of the type of plain bytes where there is no guess. *)
Theorem upload_title_is_entry_name (d e dst : string) (w : World) :
  e ≠ "" → e ≠ "." → Str.contains "/" e = false →
  let item := Pathlib.str (joinpath (Path d) e) in
  readable w item →
  ∃ w' f, upload_file item (Some dst) w = (Ok (), w') ∧
          drive w' = drive w ++ [f] ∧ gd_title f = e ∧ gd_parents f = [dst] ∧
          gd_mimeType f = default "application/octet-stream" (guess_type w item) ∧
          gd_trashed f = false.
Proof.
  intros Hne Hdot Hsep item Hread. rewrite upload_file_adds by done. eexists _, _.
  split; [reflexivity|]. split; [reflexivity|]. cbn [gd_title uploaded].
  unfold item. by rewrite name_of_entry.
Qed.

Lemma upload_title_is_entry_name_witness :
  "a.txt" ≠ "" ∧ "a.txt" ≠ "." ∧ Str.contains "/" "a.txt" = false ∧
  readable three_files_world (Pathlib.str (joinpath (Path "/data//") "a.txt")) ∧
  ∃ w' f, upload_file (Pathlib.str (joinpath (Path "/data//") "a.txt")) (Some "d1")
            three_files_world = (Ok (), w') ∧
          drive w' = drive three_files_world ++ [f] ∧ gd_title f = "a.txt" ∧
          gd_parents f = ["d1"] ∧
          gd_mimeType f = default "application/octet-stream"
                            (guess_type three_files_world
                               (Pathlib.str (joinpath (Path "/data//") "a.txt"))) ∧
          gd_trashed f = false.
Proof.
  assert (readable three_files_world (Pathlib.str (joinpath (Path "/data//") "a.txt")))
    as Hread by (split; [discriminate|reflexivity]).
  split; [discriminate|]. split; [discriminate|]. split; [reflexivity|].
  split; [exact Hread|].
  apply (upload_title_is_entry_name "/data//" "a.txt" "d1" three_files_world);
    [discriminate | discriminate | reflexivity | exact Hread].
Defined.

(** *** The script on a destination that holds files *)

Lemma cache_upload_files_unhashable_spec (local_files : list PosixPath)
    (dst_dir key : string) (w w1 : World) (i : string) :
  list_faults w = ∅ →
  get_folder_id dst_dir w = (Ok (Some i), w1) →
  children i (drive w1) ≠ [] →
  ∃ w', cache_upload_files local_files dst_dir false key w
        = (Raise (TypeError "unhashable type: 'GoogleDriveFile'"), w') ∧
        redis w' = redis w ∧ drive w' = drive w1.
Proof.
  intros Hf Hrun Hchildren.
  destruct (get_folder_id_ok dst_dir w Hf) as (i' & w1' & Hrun' & Hf1 & Hredis & _).
  rewrite Hrun in Hrun'. injection Hrun' as <- <-.
  unfold cache_upload_files. cbn [negb].
  unfold bind at 1. unfold bind at 1. rewrite Hrun.
  unfold bind at 1. unfold ListFile_GetList. change (fmt_opt (Some i)) with i.
  rewrite (no_faults_lookup _ _ Hf1).
  destruct (children i (drive w1)) as [|f others]; [done|].
  unfold bind at 1. cbn [logger_info]. unfold lift.
  rewrite set_difference_unhashable. eexists. split; [reflexivity|]. by cbn.
Qed.

Section MainStops.
Context {regex : Type}.
Variable re_compile : string → option regex.
Variable regex_search : regex → string → bool.
Variable glob_select :
  gmap string (list string) → PosixPath → string → result (list PosixPath).

(** X17. Without [overwrite_existing], on a drive whose listings do not fail
    and whose destination folder already has a child, [main] with a source
    directory stops with the [TypeError] of the seeding before it takes
    anything from the queue: the Redis sets are as they were, and the drive
    holds what the resolution of the destination left, without any upload. *)
Theorem main_stops_on_existing_files (args : Args) (src : string)
    (entries : list string) (fuel : nat) (choice : nat → nat) (w w1 : World)
    (i : string) :
  args_src args = Some src → src ≠ "" →
  args_glob args = None → args_re args = None →
  args_overwrite_existing args = false →
  list_faults w = ∅ →
  local_dirs w !! Pathlib.str (Path src) = Some entries →
  get_folder_id (args_dst args) w = (Ok (Some i), w1) →
  children i (drive w1) ≠ [] →
  ∃ w', main re_compile regex_search glob_select args fuel choice w
        = (Crashed (TypeError "unhashable type: 'GoogleDriveFile'"), w') ∧
        redis w' = redis w ∧ drive w' = drive w1.
Proof.
  intros Hsrc Hne Hglob Hre Hover Hf Hdir Hrun Hchildren.
  unfold main, seed. rewrite Hsrc, Hglob, Hre, Hover.
  destruct (String.eqb_spec src "") as [->|_]; [done|].
  destruct (get_local_files_one_dir re_compile regex_search glob_select src entries w Hdir)
    as (line & Hlocal).
  unfold bind at 1. rewrite Hlocal.
  set (wa := set_stdout (stdout w ++ [line]) w).
  assert (Hsame : same_remote w wa) by done.
  destruct (get_folder_id_congr (args_dst args) w wa Hsame) as (Hres & Hd & _).
  rewrite Hrun in Hres, Hd. cbn [fst snd] in Hres, Hd.
  destruct (get_folder_id (args_dst args) wa) as [ra wb] eqn:Hruna.
  cbn [fst snd] in Hres, Hd. subst ra.
  destruct (cache_upload_files_unhashable_spec (dir_paths w src) (args_dst args)
              default_key wa wb i Hf Hruna) as (w' & -> & Hredis & Hdrive).
  { by rewrite Hd. }
  exists w'. split; [done|]. split; [done|]. by rewrite Hdrive.
Qed.

End MainStops.

Lemma main_stops_on_existing_files_witness :
  let w := {| drive := drive seeded_world; list_faults := ∅; next_id := 0; redis := ∅;
              local_dirs := {["/data" := ["x.txt"; "y.txt"]]};
              local_files := ∅; guess_type := λ _, None;
              log := []; stdout := [] |} in
  let args := {| args_src := Some "/data"; args_dst := "dst";
                 args_glob := None; args_re := None;
                 args_overwrite_existing := false |} in
  children "d1" (drive (get_folder_id "dst" w).2) ≠ [] ∧
  ∃ w', main any_pattern any_match no_glob args 10 (λ _, 0) w
        = (Crashed (TypeError "unhashable type: 'GoogleDriveFile'"), w') ∧
        redis w' = redis w ∧ drive w' = drive (get_folder_id "dst" w).2.
Proof.
  intros w args. split; [discriminate|].
  refine (main_stops_on_existing_files any_pattern any_match no_glob args "/data"
            ["x.txt"; "y.txt"] 10 (λ _, 0) w (get_folder_id "dst" w).2 "d1"
            eq_refl _ eq_refl eq_refl eq_refl eq_refl eq_refl eq_refl _);
    discriminate.
Defined.

(** *** Conservation of the work items *)

Lemma spop_other_keys choice key k w :
  k ≠ key → smembers k (spop choice key w).2 = smembers k w.
Proof.
  intros Hk. unfold spop. destruct (elements (smembers key w) !! _); [|done].
  by apply smembers_store_set_ne.
Qed.

Lemma step_other_keys key k σ e σ' :
  step key σ e σ' → k ≠ key → smembers k (world σ') = smembers k (world σ).
Proof.
  inversion 1 as [? i choice p a p' w' Hp Hstep]; subst. intros Hk. cbn [world].
  destruct p as [dst_dir|dst_dir_id count|dst_dir_id count local_file| |e0];
    cbn [proc_step] in Hstep; [| | |done|done].
  - pose proof (get_folder_id_redis dst_dir (world σ)) as Hr.
    destruct (get_folder_id dst_dir (world σ)) as [[r|e0] w1];
      injection Hstep as <- <- <-; unfold smembers; cbn in *; by rewrite Hr.
  - pose proof (spop_other_keys choice key k (world σ) Hk) as Hs.
    destruct (spop choice key (world σ)) as [[[item|]|e0] w1];
      injection Hstep as <- <- <-; exact Hs.
  - apply (holding_step_frame key choice) in Hstep as (_ & _ & Hr & _).
    unfold smembers. by rewrite Hr.
Qed.

Lemma run_other_keys key k σ es σ' :
  run key σ es σ' → k ≠ key → smembers k (world σ') = smembers k (world σ).
Proof.
  intros Hrun Hk. induction Hrun as [σ|σ e σ' es σ'' Hstep Hrun IH]; [done|].
  rewrite IH. by eapply step_other_keys.
Qed.

(** X18. In any run of any number of workers, none of which holds an item
    at the start, no work item is lost, invented or duplicated: the items of
    the set at the start are, each exactly once, the items still in the set,
    the items that workers hold and the items whose upload was started. The
    sets at other keys are unchanged. *)
Theorem work_items_conserved (key : string) (σ σ' : system) (es : list (nat * action)) :
  run key σ es σ' → held (procs σ) = [] →
  elements (smembers key (world σ))
  ≡ₚ elements (smembers key (world σ')) ++ held (procs σ') ++ uploads es ∧
  ∀ k, k ≠ key → smembers k (world σ') = smembers k (world σ).
Proof.
  intros Hrun Hheld. split.
  - pose proof (run_held key σ es σ' Hrun) as Hperm. rewrite Hheld in Hperm. cbn in Hperm.
    destruct (run_queue key σ es σ' Hrun) as (Hnd & Hin & Hfinal & _).
    rewrite (Permutation_app_comm (held _)), <- Hperm.
    apply NoDup_Permutation.
    + apply NoDup_elements.
    + apply NoDup_app. split; [apply NoDup_elements|]. split; [|done].
      intros x Hx%elem_of_elements. rewrite Hfinal in Hx. set_solver.
    + intros x. rewrite elem_of_app, !elem_of_elements, Hfinal.
      split.
      * intros Hx. destruct (decide (x ∈ delivered es)); [by right|left]. set_solver.
      * intros [Hx|Hx]; [set_solver|by apply Hin].
  - intros k Hk. by eapply run_other_keys.
Qed.

Lemma work_items_conserved_witness :
  let key := "gdrive_upload" in
  let schedule := [(0, 0); (1, 0); (0, 0)] in
  let es := (exec key schedule two_workers).1 in
  let σ' := (exec key schedule two_workers).2 in
  run key two_workers es σ' ∧ held (procs two_workers) = [] ∧
  elements (smembers key (world two_workers))
  ≡ₚ elements (smembers key (world σ')) ++ held (procs σ') ++ uploads es ∧
  ∀ k, k ≠ key → smembers k (world σ') = smembers k (world two_workers).
Proof.
  intros key schedule es σ'.
  split; [apply exec_run|]. split; [reflexivity|].
  exact (work_items_conserved key two_workers σ' es (exec_run key schedule two_workers)
           eq_refl).
Defined.
